(** * Closure examples of [01_Closure.js]: a shallow embedding

    Every example of the file is a function that captures private mutable
    state and returns a closure over it.  A closure is embedded as the
    record (or number) holding its captured variables together with a step
    function [input -> state -> output * state]; calling the closure several
    times is threading the state through the step function ([run]).

    Conventions of the embedding:
    - JavaScript numbers are embedded as [Z].  The examples only add,
      subtract and compare counters and prices, which is exact on the safe
      integers; fractional and non-finite numbers are outside the model
      (except [NaN], which matters for truthiness).  Where a caller
      chooses the numbers (the coupon), the embedding checks that they are
      safe integers and gives no result otherwise.
    - strings are byte strings (UTF-8), template literals are
      concatenations, and a number inside a template literal prints in
      decimal ([pretty]).
    - a pending promise is not a state of the model: an [async] call is
      embedded by the outcome its promise settles with, and calls are
      sequential (each one settles before the next starts, and the fetch
      function does not call the wrapper that is calling it).
    - [await] has unwrapped what the fetch function resolves with: the
      values stored in the cache are no promises.
    - the global environment is the standard one: [Object.prototype] has
      its standard properties and nothing else.
    - arguments have the type their parameter names announce: passwords,
      coupon codes and URLs are strings, prices and limits are numbers. *)

From stdpp Require Import gmap strings list pretty.

Open Scope Z_scope.

(** ** Running a closure on a sequence of calls *)

Section Run.
Context {St In Out : Type}.
Variable step : In -> St -> Out * St.

(** The outputs of the successive calls and the final captured state. *)
Fixpoint run (ins : list In) (s : St) : list Out * St :=
  match ins with
  | [] => ([], s)
  | i :: ins' =>
      let '(o, s1) := step i s in
      let '(os, s2) := run ins' s1 in
      (o :: os, s2)
  end.

(** The captured state after the calls. *)
Definition after (ins : list In) (s : St) : St := (run ins s).2.

(** The outputs of the calls. *)
Definition outputs (ins : list In) (s : St) : list Out := (run ins s).1.

End Run.

Section RunPartial.
Context {St In Out : Type}.
Variable step : In -> St -> option (Out * St).

(** The same for a closure whose embedding covers part of its inputs: the
    run has a result when every call has one. *)
Fixpoint run_partial (ins : list In) (s : St) : option (list Out * St) :=
  match ins with
  | [] => Some ([], s)
  | i :: ins' =>
      match step i s with
      | None => None
      | Some (o, s1) =>
          match run_partial ins' s1 with
          | None => None
          | Some (os, s2) => Some (o :: os, s2)
          end
      end
  end.

End RunPartial.

(** The double quote character, as a one-character string. *)
Definition dquote : string := String (Ascii.ascii_of_nat 34) EmptyString.

(** ** Intermediate example: the counter ([counter]) *)

Module Counter.

(** The two functions of the object that [counter()] returns. *)
Inductive Method := inc | dec.

#[global] Instance Method_eq_dec : EqDecision Method.
Proof. solve_decision. Defined.

(** [counter()] returns closures over [count], initially 0. *)
Definition counter : Z := 0.

(** [inc: () => ++count] and [dec: () => --count]: both update the one
    captured [count] and return its new value. *)
Definition invoke (m : Method) (count : Z) : Z * Z :=
  match m with
  | inc => (count + 1, count + 1)
  | dec => (count - 1, count - 1)
  end.

(** The calls of [inc] minus the calls of [dec]. *)
Definition net (ms : list Method) : Z :=
  Z.of_nat (length (filter (fun m => m = inc) ms))
  - Z.of_nat (length (filter (fun m => m = dec) ms)).

End Counter.

(** ** 1. Login attempt tracker ([loginSystem]) *)

Module Login.

Definition maxAttempts : Z := 3.

(** [loginSystem()] returns a closure over [attempts], initially 0. *)
Definition loginSystem : Z := 0.

(** The body of the returned function; the state is [attempts]. *)
Definition login (password : string) (attempts : Z) : string * Z :=
  if maxAttempts <=? attempts then ("Account locked!", attempts)
  else if String.eqb password "secret123" then ("Login successful!", attempts)
  else
    let attempts := attempts + 1 in
    ("Wrong password! " +:+ pretty (maxAttempts - attempts) +:+ " tries left",
     attempts).

(** What the closure answers to [password] after the calls [history]. *)
Definition answer (history : list string) (password : string) : string :=
  (login password (after login history loginSystem)).1.

(** The number of calls of [history] made with a wrong password. *)
Definition wrong (history : list string) : Z :=
  Z.of_nat (length (filter (λ p, p ≠ "secret123"%string) history)).

(** An answer that reports a wrong password. *)
Definition wrong_answer (a : string) : bool :=
  negb (String.eqb a "Account locked!")
  && negb (String.eqb a "Login successful!").

End Login.

(** ** 3. Coupon code system ([createCoupon]) *)

Module Coupon.

(** The numbers of the coupon.  The closure subtracts, increments and
    compares numbers and prints them in template literals.  On the safe
    integers the arithmetic of doubles is the arithmetic of [Z], and a
    number prints as its decimal numeral ([pretty]).  [num n] is [n] when
    it is a safe integer and nothing otherwise: on other numbers (larger
    ones, fractions) a call has no result in the embedding. *)
Definition MAX_SAFE_INTEGER : Z := 2 ^ 53 - 1.

Definition safe (n : Z) : Prop :=
  - MAX_SAFE_INTEGER <= n <= MAX_SAFE_INTEGER.

#[global] Instance safe_dec (n : Z) : Decision (safe n).
Proof. unfold safe. apply _. Defined.

Definition num (n : Z) : option Z :=
  if decide (safe n) then Some n else None.

(** The variables captured by the closure that [createCoupon] returns. *)
Record Coupon := mkCoupon {
  code : string;
  discount : Z;
  maxUses : Z;
  uses : Z
}.

Definition createCoupon (code : string) (discount maxUses : Z) : Coupon :=
  mkCoupon code discount maxUses 0.

Definition expired_msg (code : string) : string :=
  "❌ Coupon " +:+ dquote +:+ code +:+ dquote +:+ " expired!".

Definition applied_msg (code : string) (finalPrice remaining : Z) : string :=
  "✅ Coupon " +:+ dquote +:+ code +:+ dquote +:+ " applied! Final price: $"
    +:+ pretty finalPrice +:+ " (Remaining uses: " +:+ pretty remaining +:+ ")".

(** The body of the returned function, on safe integers. *)
Definition redeem (price : Z) (c : Coupon) : option (string * Coupon) :=
  p ← num price;
  d ← num (discount c);
  m ← num (maxUses c);
  u ← num (uses c);
  if m <=? u then Some (expired_msg (code c), c)
  else
    u' ← num (u + 1);
    finalPrice ← num (p - d);
    remaining ← num (m - u');
    Some (applied_msg (code c) finalPrice remaining,
          mkCoupon (code c) d m u').

(** What the [i]-th call (counted from 0) of a coupon that starts with
    [u] uses answers to [price]. *)
Definition coupon_answer (code : string) (discount maxUses u : Z)
    (i : nat) (price : Z) : string :=
  if u + Z.of_nat i <? maxUses
  then applied_msg code (price - discount) (maxUses - (u + Z.of_nat i + 1))
  else expired_msg code.

End Coupon.

(** ** 4. API caching system ([createAPICache]) *)

Module APICache.

(** *** JavaScript values

    Objects are references.  The ones the cache can hand out without the
    fetch function having produced them are the intrinsics reachable from
    [Object.prototype], the prototype of the object literal [{}]. *)
Inductive ObjRef :=
  | ObjectPrototype                    (* %Object.prototype% *)
  | ObjectConstructor                  (* %Object% *)
  | ObjectProtoMethod (name : string)  (* the function %Object.prototype.name% *)
  | HeapObj (id : nat).                (* any other object *)

Inductive JsVal :=
  | VUndefined
  | VNull
  | VBool (b : bool)
  | VNum (n : Z)
  | VNaN
  | VStr (s : string)
  | VObj (o : ObjRef).

(** ToBoolean: what [if (v)] tests. *)
Definition truthy (v : JsVal) : bool :=
  match v with
  | VUndefined | VNull | VNaN => false
  | VBool b => b
  | VNum n => negb (n =? 0)
  | VStr s => negb (String.eqb s EmptyString)
  | VObj _ => true
  end.

(** *** The cache object [{}]

    [const cache = {}] is an ordinary object: its own properties are the
    entries the wrapper stored, and a property it does not own is looked up
    on [Object.prototype]. *)
Definition object_prototype_methods : list string :=
  [ "__defineGetter__"; "__defineSetter__"; "__lookupGetter__";
    "__lookupSetter__"; "hasOwnProperty"; "isPrototypeOf";
    "propertyIsEnumerable"; "toLocaleString"; "toString"; "valueOf" ]%string.

(** [Object.prototype[k]] read from an object whose prototype it is. *)
Definition inherited (k : string) : option JsVal :=
  if String.eqb k "constructor" then Some (VObj ObjectConstructor)
  else if String.eqb k "__proto__" then Some (VObj ObjectPrototype)
  else if existsb (String.eqb k) object_prototype_methods
       then Some (VObj (ObjectProtoMethod k))
  else None.

(** [cache[url]]: the own entry, else the inherited property, else
    [undefined]. *)
Definition cache_get (cache : gmap string JsVal) (url : string) : JsVal :=
  match cache !! url with
  | Some v => v
  | None => default VUndefined (inherited url)
  end.

(** [cache[url] = result].  The wrapper reaches this assignment only when
    [cache[url]] is falsy, hence (lemma [inherited_truthy]) only for a
    [url] that names no property of [Object.prototype]: the assignment then
    creates or overwrites an own data property. *)
Definition cache_set (url : string) (result : JsVal)
    (cache : gmap string JsVal) : gmap string JsVal :=
  <[url := result]> cache.

(** *** Promises and the environment *)

(** What a promise settles with. *)
Inductive Settled :=
  | Fulfilled (value : JsVal)
  | Rejected (reason : JsVal).

(** What a call leaves behind outside the closure: a line on the console,
    or a call [fetchFunction(url)] and what it settled with. *)
Inductive Event :=
  | ConsoleLog (msg arg : string)
  | FetchCall (url : string) (outcome : Settled).

Section Wrapper.
(** The state the fetch function reads and writes (a server, a counter,
    timers): it is not the cache, which only the wrapper reaches. *)
Context {World : Type}.

Record Env := mkEnv {
  world : World;
  trace : list Event
}.

(** The captured variables of the function returned by [createAPICache]. *)
Record Closure := mkClosure {
  fetchFunction : string -> World -> Settled * World;
  cache : gmap string JsVal
}.

Definition createAPICache (fetchFunction : string -> World -> Settled * World)
    : Closure :=
  mkClosure fetchFunction ∅.

(** [console.log(msg, arg)]. *)
Definition console_log (msg arg : string) (e : Env) : Env :=
  mkEnv (world e) (trace e ++ [ConsoleLog msg arg]).

(** The body of the returned [async function(url)]. *)
Definition wrapper (url : string) (cl : Closure) (e : Env)
    : Settled * Closure * Env :=
  if truthy (cache_get (cache cl) url) then
    (Fulfilled (cache_get (cache cl) url), cl,
     console_log "📦 Returning from cache:" url e)
  else
    let e1 := console_log "🌐 Fetching from API:" url e in
    match fetchFunction cl url (world e1) with
    | (Fulfilled result, w) =>
        (Fulfilled result,
         mkClosure (fetchFunction cl) (cache_set url result (cache cl)),
         mkEnv w (trace e1 ++ [FetchCall url (Fulfilled result)]))
    | (Rejected reason, w) =>
        (Rejected reason, cl,
         mkEnv w (trace e1 ++ [FetchCall url (Rejected reason)]))
    end.

(** One wrapper and its environment, as a closure to [run]. *)
Definition call (url : string) (s : Closure * Env)
    : Settled * (Closure * Env) :=
  let '(o, cl, e) := wrapper url s.1 s.2 in (o, (cl, e)).

(** The keys the fetch function was called with, in order. *)
Fixpoint fetches (t : list Event) : list string :=
  match t with
  | [] => []
  | FetchCall url _ :: t' => url :: fetches t'
  | ConsoleLog _ _ :: t' => fetches t'
  end.

(** *** Several wrappers in one program

    Every call of [createAPICache] evaluates [const cache = {}], which
    allocates a new object.  The store of a program holds the cache
    objects allocated so far, by address, and the environment that all
    wrappers share.  A wrapper is its two captured variables: the fetch
    function and the address of its cache object. *)
Record Store := mkStore {
  objects : list (gmap string JsVal);
  shared : Env
}.

Record Wrapper := mkWrapper {
  fetchOf : string -> World -> Settled * World;
  cacheRef : nat
}.


(** The body of the returned [async function(url)], reading and writing
    the object at [cacheRef]; no result for a wrapper whose cache is not an
    object of the store. *)
Definition wrapper_in (url : string) (wr : Wrapper) (st : Store)
    : option Settled * Store :=
  match objects st !! cacheRef wr with
  | None => (None, st)
  | Some cache =>
      if truthy (cache_get cache url) then
        (Some (Fulfilled (cache_get cache url)),
         mkStore (objects st)
           (console_log "📦 Returning from cache:" url (shared st)))
      else
        let e1 := console_log "🌐 Fetching from API:" url (shared st) in
        match fetchOf wr url (world e1) with
        | (Fulfilled result, w) =>
            (Some (Fulfilled result),
             mkStore (<[cacheRef wr := cache_set url result cache]> (objects st))
               (mkEnv w (trace e1 ++ [FetchCall url (Fulfilled result)])))
        | (Rejected reason, w) =>
            (Some (Rejected reason),
             mkStore (objects st)
               (mkEnv w (trace e1 ++ [FetchCall url (Rejected reason)])))
        end
  end.




(** *** Vocabulary of the properties *)

(** The entries of the cache were all produced by the fetch function,
    called with their own key. *)
Definition entries_fetched (s : Closure * Env) : Prop :=
  forall k v, cache s.1 !! k = Some v ->
    FetchCall k (Fulfilled v) ∈ trace s.2.

(** The outcome of [f] does not depend on the state [f] keeps. *)
Definition history_independent (f : string -> World -> Settled * World) : Prop :=
  forall k (w w' : World), (f k w).1 = (f k w').1.

(** Whenever [f] resolves for [k], it resolves with a falsy value. *)
Definition resolves_falsy (f : string -> World -> Settled * World)
    (k : string) : Prop :=
  forall (w : World) r, (f k w).1 = Fulfilled r -> truthy r = false.



End Wrapper.

Arguments Env : clear implicits.
Arguments Closure : clear implicits.
Arguments Store : clear implicits.
Arguments Wrapper : clear implicits.

(** [fakeFetch]: resolves with [`Data from ${url}`] after a timer; the
    world counts the timers set. *)
Definition fakeFetch (url : string) (timers : nat) : Settled * nat :=
  (Fulfilled (VStr ("Data from " +:+ url)), S timers).

(** A fetch function with state of its own,
    [let n = 0; async url => n++]. *)
Definition counterFetch (url : string) (n : Z) : Settled * Z :=
  (Fulfilled (VNum n), n + 1).



(** A fetch function that fails until the server is up,
    [async url => { if (!up) { up = true; throw "down" } return url }]. *)
Definition flakyFetch (url : string) (up : bool) : Settled * bool :=
  if up then (Fulfilled (VStr url), up)
  else (Rejected (VStr "down"), true).

(** A fetch function that always resolves with [v], [async url => v]. *)
Definition constFetch (v : JsVal) (url : string) (w : unit) : Settled * unit :=
  (Fulfilled v, w).

(** How many of the keys [urls] are [k]. *)
Definition calls_of (k : string) (urls : list string) : nat :=
  length (filter (fun url => url = k) urls).

(** [f] always resolves, and with a truthy value. *)
Definition always_truthy {World : Type}
    (f : string -> World -> Settled * World) : Prop :=
  forall k w, exists r, (f k w).1 = Fulfilled r /\ truthy r = true.

(** The value that the last call [fetchFunction(k)] of the trace to
    resolve resolved with. *)
Fixpoint last_fulfilled (k : string) (t : list Event) : option JsVal :=
  match t with
  | [] => None
  | ev :: t' =>
      match last_fulfilled k t' with
      | Some v => Some v
      | None =>
          match ev with
          | FetchCall url (Fulfilled v) =>
              if String.eqb url k then Some v else None
          | _ => None
          end
      end
  end.

(** The lines of the console, message and argument, in order. *)
Fixpoint console (t : list Event) : list (string * string) :=
  match t with
  | [] => []
  | ConsoleLog msg arg :: t' => (msg, arg) :: console t'
  | FetchCall _ _ :: t' => console t'
  end.

(** The cache of a wrapper whose fetch function resolves with truthy
    values only: truthy entries, for the keys fetched, each fetched once,
    none of them a name that [{}] inherits. *)
Definition fetched_once {World : Type} (s : Closure World * Env World) : Prop :=
  (forall k v, cache s.1 !! k = Some v ->
     truthy v = true /\ inherited k = None)
  /\ (forall k, k ∈ fetches (trace s.2) <-> is_Some (cache s.1 !! k))
  /\ NoDup (fetches (trace s.2)).

(** What the calls [fetchFunction(url)] of the trace settled with, in
    order. *)
Fixpoint fetch_outcomes (t : list Event) : list Settled :=
  match t with
  | [] => []
  | FetchCall _ o :: t' => o :: fetch_outcomes t'
  | ConsoleLog _ _ :: t' => fetch_outcomes t'
  end.

(** The reason of a rejection. *)
Definition rejection (o : Settled) : option JsVal :=
  match o with
  | Rejected reason => Some reason
  | Fulfilled _ => None
  end.

(** [const cachedFetch = createAPICache(fakeFetch)], before any timer
    was set. *)
Definition cachedFetch : Closure nat * Env nat :=
  (createAPICache fakeFetch, mkEnv 0%nat []).

End APICache.

(** * Properties *)

(** ** Sequences of calls *)

Section RunFacts.
Context {St In Out : Type}.
Variable step : In -> St -> Out * St.

Lemma after_nil s : after step [] s = s.
Proof. reflexivity. Qed.

Lemma after_cons i ins s :
  after step (i :: ins) s = after step ins (step i s).2.
Proof.
  unfold after; simpl. destruct (step i s) as [o s1]; simpl.
  now destruct (run step ins s1).
Qed.

Lemma outputs_cons i ins s :
  outputs step (i :: ins) s = (step i s).1 :: outputs step ins (step i s).2.
Proof.
  unfold outputs; simpl. destruct (step i s) as [o s1]; simpl.
  now destruct (run step ins s1).
Qed.

(** A property kept by every call of a sequence holds after it. *)
Lemma after_invariant (P : St -> Prop) (ins : list In) :
  (forall i s, i ∈ ins -> P s -> P (step i s).2) ->
  forall s, P s -> P (after step ins s).
Proof.
  induction ins as [|i ins IH]; intros Hstep s Hs; [done|].
  rewrite after_cons. apply IH.
  - intros i' s' Hi'. apply Hstep. now right.
  - apply Hstep; [left|done].
Qed.

End RunFacts.

(** ** Login attempt tracker *)

Section LoginFacts.
Import Login.

Lemma wrong_nonneg h : 0 <= wrong h.
Proof. unfold wrong; lia. Qed.

Lemma wrong_cons_ok h : wrong ("secret123"%string :: h) = wrong h.
Proof.
  unfold wrong. rewrite filter_cons_False; [done|]. intros H; now apply H.
Qed.

Lemma wrong_cons_bad p h :
  p ≠ "secret123"%string -> wrong (p :: h) = 1 + wrong h.
Proof.
  intros Hp. unfold wrong. rewrite filter_cons_True by done.
  simpl length. lia.
Qed.

(** The counter is the number of wrong passwords seen, capped at
    [maxAttempts]: a locked closure counts no further. *)
Lemma attempts_after h a :
  0 <= a <= maxAttempts ->
  after login h a = Z.min maxAttempts (a + wrong h).
Proof.
  revert a; induction h as [|p h IH]; intros a Ha.
  - rewrite after_nil. unfold wrong, maxAttempts in *; simpl; lia.
  - rewrite after_cons. unfold login at 2.
    destruct (Z.leb_spec maxAttempts a) as [Hl|Hl]; simpl.
    + rewrite IH by done. pose proof (wrong_nonneg h).
      pose proof (wrong_nonneg (p :: h)). unfold maxAttempts in *; lia.
    + destruct (String.eqb_spec p "secret123") as [->|Hp]; simpl.
      * rewrite IH by done. now rewrite wrong_cons_ok.
      * rewrite IH by (unfold maxAttempts in *; lia).
        rewrite (wrong_cons_bad p h Hp). f_equal; lia.
Qed.

Lemma attempts_history h :
  after login h loginSystem = Z.min 3 (wrong h).
Proof.
  unfold loginSystem. rewrite attempts_after by (unfold maxAttempts; lia).
  reflexivity.
Qed.

(** C9 (login lockout off-by-one).  After two wrong passwords, a third
    wrong password is answered "Wrong password! 0 tries left", not with the
    lock message; "Account locked!" is the answer exactly when three calls
    with a wrong password were made before the call; and a locked closure
    answers "Account locked!" to the correct password "secret123" too. *)
Theorem login_lockout_off_by_one (history : list string) (password : string) :
  (wrong history = 2 -> password ≠ "secret123"%string ->
     answer history password = "Wrong password! 0 tries left"%string)
  /\ (answer history password = "Account locked!"%string <-> 3 <= wrong history)
  /\ (3 <= wrong history ->
        answer history "secret123" = "Account locked!"%string).
Proof.
  assert (Hlock : forall p, 3 <= wrong history ->
            answer history p = "Account locked!"%string).
  { intros p H3. unfold answer. rewrite attempts_history.
    replace (Z.min 3 (wrong history)) with 3 by lia. reflexivity. }
  split; [|split].
  - intros H2 Hp. unfold answer. rewrite attempts_history, H2.
    unfold login; simpl.
    destruct (String.eqb_spec password "secret123") as [->|_]; [done|].
    reflexivity.
  - split; [|apply Hlock].
    intros Hans. pose proof (wrong_nonneg history) as H0.
    destruct (Z.le_gt_cases 3 (wrong history)) as [|Hlt]; [done|exfalso].
    revert Hans. unfold answer. rewrite attempts_history.
    replace (Z.min 3 (wrong history)) with (wrong history) by lia.
    unfold login.
    destruct (Z.leb_spec maxAttempts (wrong history)) as [Hl|_];
      [unfold maxAttempts in Hl; lia|].
    destruct (String.eqb password "secret123"); simpl; discriminate.
  - apply Hlock.
Qed.

(** The scenario the source prints, with the answers the code gives. *)
Lemma login_lockout_witness :
  answer ["test"; "wrong"]%string "wrong" = "Wrong password! 0 tries left"%string
  /\ answer ["test"; "wrong"; "wrong"]%string "secret123"
     = "Account locked!"%string.
Proof.
  split.
  - apply (proj1 (login_lockout_off_by_one ["test"; "wrong"]%string "wrong"));
      [reflexivity | discriminate].
  - apply (proj2 (proj2 (login_lockout_off_by_one
                           ["test"; "wrong"; "wrong"]%string "secret123"))).
    vm_compute; discriminate.
Defined.

End LoginFacts.

(** ** Coupon code system *)

Section CouponFacts.
Import Coupon.

Lemma num_safe n : safe n -> num n = Some n.
Proof. intros H. unfold num. now destruct (decide (safe n)). Qed.

Lemma redeem_expired price c :
  safe price -> safe (discount c) -> safe (maxUses c) -> safe (uses c) ->
  maxUses c <= uses c ->
  redeem price c = Some (expired_msg (code c), c).
Proof.
  intros Hp Hd Hm Hu H. unfold redeem. rewrite !num_safe by done. simpl.
  destruct (Z.leb_spec (maxUses c) (uses c)); [done|lia].
Qed.

Lemma redeem_applied price c :
  safe price -> safe (discount c) -> safe (maxUses c) ->
  safe (price - discount c) ->
  0 <= uses c < maxUses c ->
  redeem price c =
    Some (applied_msg (code c) (price - discount c)
            (maxUses c - (uses c + 1)),
          mkCoupon (code c) (discount c) (maxUses c) (uses c + 1)).
Proof.
  intros Hp Hd Hm Hf Hu. unfold redeem.
  assert (safe (uses c)) by (unfold safe in *; lia).
  rewrite !num_safe by done. simpl.
  destruct (Z.leb_spec (maxUses c) (uses c)); [lia|].
  assert (safe (uses c + 1)) by (unfold safe in *; lia).
  assert (safe (maxUses c - (uses c + 1))) by (unfold safe in *; lia).
  rewrite (num_safe (uses c + 1)) by done. simpl.
  rewrite (num_safe (price - discount c)) by done. simpl.
  now rewrite (num_safe (maxUses c - (uses c + 1))) by done.
Qed.

Lemma coupon_run code discount maxUses prices : forall u,
  safe discount -> safe maxUses ->
  Forall (fun price => safe price /\ safe (price - discount)) prices ->
  0 <= u <= Z.max 0 maxUses ->
  run_partial redeem prices (mkCoupon code discount maxUses u)
  = Some (imap (coupon_answer code discount maxUses u) prices,
          mkCoupon code discount maxUses
            (Z.min (u + Z.of_nat (length prices)) (Z.max u maxUses))).
Proof.
  intros u Hd Hm Hprices. revert u.
  induction Hprices as [|price prices [Hp Hf] _ IH]; intros u Hu.
  - simpl.
    replace (Z.min (u + Z.of_nat 0) (Z.max u maxUses)) with u by lia.
    reflexivity.
  - assert (Hsu : safe u) by (unfold safe in *; lia).
    simpl run_partial. rewrite imap_cons.
    destruct (Z.le_gt_cases maxUses u) as [Hle|Hlt].
    + rewrite redeem_expired by done. simpl. rewrite IH by done.
      f_equal. f_equal.
      * f_equal.
        { unfold coupon_answer.
          destruct (Z.ltb_spec (u + Z.of_nat 0) maxUses); [lia|done]. }
        apply imap_ext; intros i p _. unfold coupon_answer, compose.
        destruct (Z.ltb_spec (u + Z.of_nat i) maxUses);
          destruct (Z.ltb_spec (u + Z.of_nat (S i)) maxUses); (done || lia).
      * f_equal. simpl length. lia.
    + rewrite redeem_applied by (done || simpl; lia). simpl.
      rewrite IH by lia. f_equal. f_equal.
      * f_equal.
        { unfold coupon_answer.
          destruct (Z.ltb_spec (u + Z.of_nat 0) maxUses); [|lia].
          f_equal; lia. }
        apply imap_ext; intros i p _. unfold coupon_answer, compose.
        replace (u + 1 + Z.of_nat i) with (u + Z.of_nat (S i)) by lia.
        done.
      * f_equal. simpl length. lia.
Qed.

(** C10 (coupon usage bound, unbounded discount).  For safe integers
    [discount], [maxUses] and prices with a safe [price - discount]: on any
    sequence of calls of the closure returned by
    [createCoupon(code, discount, maxUses)], the [i]-th call (from 0) with
    [price] succeeds exactly when [i < maxUses] and then reports the final
    price [price - discount], whatever its sign, and [maxUses - (i + 1)]
    remaining uses; every later call returns the expired message and
    leaves the uses counted as they are, never above [maxUses]. *)
Theorem coupon_usage_bound (code : string) (discount maxUses : Z)
    (prices : list Z) :
  safe discount -> safe maxUses ->
  Forall (fun price => safe price /\ safe (price - discount)) prices ->
  run_partial redeem prices (createCoupon code discount maxUses)
  = Some
      (imap (fun i price =>
               if Z.of_nat i <? maxUses
               then ("✅ Coupon " +:+ dquote +:+ code +:+ dquote
                       +:+ " applied! Final price: $"
                       +:+ pretty (price - discount)
                       +:+ " (Remaining uses: "
                       +:+ pretty (maxUses - (Z.of_nat i + 1)) +:+ ")")%string
               else ("❌ Coupon " +:+ dquote +:+ code +:+ dquote
                       +:+ " expired!")%string) prices,
       mkCoupon code discount maxUses
         (Z.min (Z.of_nat (length prices)) (Z.max 0 maxUses))).
Proof.
  intros Hd Hm Hprices. unfold createCoupon.
  rewrite (coupon_run code discount maxUses prices 0) by (done || lia).
  reflexivity.
Qed.

(** The run of the source, with a last call on a price below the
    discount: two calls are applied, the coupon then stays expired. *)
Lemma coupon_usage_witness :
  run_partial redeem [200; 100; 300; 30] (createCoupon "WELCOME50" 50 2)
  = Some
      (imap (fun i price =>
               if Z.of_nat i <? 2
               then ("✅ Coupon " +:+ dquote +:+ "WELCOME50" +:+ dquote
                       +:+ " applied! Final price: $"
                       +:+ pretty (price - 50)
                       +:+ " (Remaining uses: "
                       +:+ pretty (2 - (Z.of_nat i + 1)) +:+ ")")%string
               else ("❌ Coupon " +:+ dquote +:+ "WELCOME50" +:+ dquote
                       +:+ " expired!")%string) [200; 100; 300; 30],
       mkCoupon "WELCOME50" 50 2
         (Z.min (Z.of_nat (length [200; 100; 300; 30])) (Z.max 0 2))).
Proof.
  apply (coupon_usage_bound "WELCOME50" 50 2 [200; 100; 300; 30]).
  - unfold safe, MAX_SAFE_INTEGER. simpl. lia.
  - unfold safe, MAX_SAFE_INTEGER. simpl. lia.
  - repeat constructor; unfold safe, MAX_SAFE_INTEGER; simpl; lia.
Defined.

(** A price below the discount gives a negative final price. *)
Example coupon_negative_price :
  run_partial redeem [30; 10; 0] (createCoupon "WELCOME50" 50 2)
  = Some ([ applied_msg "WELCOME50" (-20) 1;
            applied_msg "WELCOME50" (-40) 0;
            expired_msg "WELCOME50" ],
          mkCoupon "WELCOME50" 50 2 2).
Proof. reflexivity. Qed.

(** Beyond the safe integers a double is not the integer it stands for:
    the embedding gives such a call no result. *)
Example coupon_unsafe_price :
  run_partial redeem [2 ^ 53 + 2] (createCoupon "WELCOME50" 1 2) = None
  /\ run_partial redeem [10 ^ 21] (createCoupon "WELCOME50" 1 2) = None.
Proof. split; reflexivity. Qed.

End CouponFacts.

(** ** API caching system *)

Section CacheFacts.
Import APICache.
Context {World : Type}.
Implicit Types (s : Closure World * Env World) (k url : string).
Implicit Types (c : gmap string JsVal) (v r : JsVal).

(** *** The cache object *)

(** Every property of [Object.prototype] is a function or an object. *)
Lemma inherited_truthy k v : inherited k = Some v -> truthy v = true.
Proof.
  unfold inherited. repeat case_match; intros [= <-]; reflexivity.
Qed.

Lemma cache_get_own c k v : c !! k = Some v -> cache_get c k = v.
Proof. unfold cache_get. now intros ->. Qed.

Lemma cache_get_fresh c k :
  c !! k = None -> inherited k = None -> cache_get c k = VUndefined.
Proof. unfold cache_get. now intros -> ->. Qed.

Lemma cache_get_set_eq c k r : cache_get (cache_set k r c) k = r.
Proof. unfold cache_get, cache_set. now rewrite lookup_insert_eq. Qed.

Lemma cache_get_lookup c c' k :
  c' !! k = c !! k -> cache_get c' k = cache_get c k.
Proof. unfold cache_get. now intros ->. Qed.

(** What [truthy] rejects: the falsy values of the model. *)
Lemma falsy_values v :
  truthy v = false <->
  v ∈ [VUndefined; VNull; VBool false; VNum 0; VNaN; VStr EmptyString].
Proof.
  split.
  - destruct v as [| |[]|n| |[|a x]|o]; simpl; try discriminate; intros H.
    + set_solver.
    + set_solver.
    + set_solver.
    + apply negb_false_iff, Z.eqb_eq in H as ->. set_solver.
    + set_solver.
    + set_solver.
  - rewrite !elem_of_cons, elem_of_nil.
    intros [->|[->|[->|[->|[->|[->|[]]]]]]]; reflexivity.
Qed.

(** *** One call *)

Lemma fetches_app (t1 t2 : list Event) :
  fetches (t1 ++ t2) = fetches t1 ++ fetches t2.
Proof.
  induction t1 as [|[msg arg|url o] t1 IH]; simpl; [done|done|now f_equal].
Qed.

(** A hit: the stored (or inherited) value is truthy. *)
Lemma call_hit k s :
  truthy (cache_get (cache s.1) k) = true ->
  call k s = (Fulfilled (cache_get (cache s.1) k),
              (s.1, console_log "📦 Returning from cache:" k s.2)).
Proof.
  destruct s as [cl e]; unfold call, wrapper; simpl. now intros ->.
Qed.

(** A miss: the fetch function is called, once, and its outcome decides. *)
Lemma call_miss k s :
  truthy (cache_get (cache s.1) k) = false ->
  call k s =
    match fetchFunction s.1 k (world s.2) with
    | (Fulfilled r, w) =>
        (Fulfilled r,
         (mkClosure (fetchFunction s.1) (cache_set k r (cache s.1)),
          mkEnv w (trace s.2 ++ [ConsoleLog "🌐 Fetching from API:" k;
                                 FetchCall k (Fulfilled r)])))
    | (Rejected reason, w) =>
        (Rejected reason,
         (s.1,
          mkEnv w (trace s.2 ++ [ConsoleLog "🌐 Fetching from API:" k;
                                 FetchCall k (Rejected reason)])))
    end.
Proof.
  destruct s as [cl e]; unfold call, wrapper; simpl. intros ->.
  destruct (fetchFunction cl k (world e)) as [[r|reason] w]; simpl;
    now rewrite <- app_assoc.
Qed.

Lemma call_hit_fetches k s :
  truthy (cache_get (cache s.1) k) = true ->
  fetches (trace (call k s).2.2) = fetches (trace s.2).
Proof.
  intros H. rewrite (call_hit k s H). simpl.
  rewrite fetches_app. simpl. apply app_nil_r.
Qed.

Lemma call_miss_fetches k s :
  truthy (cache_get (cache s.1) k) = false ->
  fetches (trace (call k s).2.2) = fetches (trace s.2) ++ [k].
Proof.
  intros H. rewrite (call_miss k s H).
  destruct (fetchFunction s.1 k (world s.2)) as [[r|reason] w]; simpl;
    now rewrite fetches_app.
Qed.

(** The only entry a call with [url] can write is the one of [url]. *)
Lemma call_cache url s :
  cache (call url s).2.1 = cache s.1
  \/ (truthy (cache_get (cache s.1) url) = false
      /\ exists r, (call url s).1 = Fulfilled r
           /\ cache (call url s).2.1 = <[url := r]> (cache s.1)).
Proof.
  destruct (truthy (cache_get (cache s.1) url)) eqn:Hhit.
  - left. now rewrite (call_hit url s Hhit).
  - rewrite (call_miss url s Hhit).
    destruct (fetchFunction s.1 url (world s.2)) as [[r|reason] w]; simpl.
    + right. split; [done|]. now exists r.
    + now left.
Qed.

Lemma call_other_key url k s :
  url ≠ k -> cache (call url s).2.1 !! k = cache s.1 !! k.
Proof.
  intros Hne. destruct (call_cache url s) as [->|(_ & r & _ & ->)]; [done|].
  now apply lookup_insert_ne.
Qed.

(** A truthy entry is never overwritten. *)
Lemma call_keeps_truthy url k s :
  truthy (cache_get (cache s.1) k) = true ->
  cache_get (cache (call url s).2.1) k = cache_get (cache s.1) k.
Proof.
  intros Hk. destruct (call_cache url s) as [->|(Hmiss & r & _ & Hc)]; [done|].
  apply cache_get_lookup. rewrite Hc. apply lookup_insert_ne.
  intros ->. congruence.
Qed.

Lemma call_fetchFunction url s :
  fetchFunction (call url s).2.1 = fetchFunction s.1.
Proof.
  destruct (truthy (cache_get (cache s.1) url)) eqn:Hhit.
  - now rewrite (call_hit url s Hhit).
  - rewrite (call_miss url s Hhit).
    now destruct (fetchFunction s.1 url (world s.2)) as [[r|reason] w].
Qed.

(** *** Sequences of calls *)

Lemma after_keeps_truthy urls k s :
  truthy (cache_get (cache s.1) k) = true ->
  cache_get (cache (after call urls s).1) k = cache_get (cache s.1) k.
Proof.
  intros Hk.
  apply (after_invariant call
           (fun s' => cache_get (cache s'.1) k = cache_get (cache s.1) k));
    [|done].
  intros url s' _ Hs'. rewrite <- Hs'. apply call_keeps_truthy. congruence.
Qed.

Lemma after_other_keys urls k s :
  k ∉ urls -> cache (after call urls s).1 !! k = cache s.1 !! k.
Proof.
  intros Hk.
  apply (after_invariant call (fun s' => cache s'.1 !! k = cache s.1 !! k));
    [|done].
  intros url s' Hurl Hs'. rewrite <- Hs'. apply call_other_key.
  intros ->. contradiction.
Qed.

(** *** Memoization *)

(** X13.  Memoization of truthy results.  If a call with key [k] resolves
    with a truthy value [v], then after any further sequential calls
    [later] of the wrapper, a call with [k] returns [v] and does not call
    the fetch function. *)
Theorem memoization_of_truthy_results s k v (later : list string) :
  (call k s).1 = Fulfilled v ->
  truthy v = true ->
  (call k (after call later (call k s).2)).1 = Fulfilled v
  /\ fetches (trace (call k (after call later (call k s).2)).2.2)
     = fetches (trace (after call later (call k s).2).2).
Proof.
  intros Hres Hv.
  assert (Hstored : cache_get (cache (call k s).2.1) k = v).
  { destruct (truthy (cache_get (cache s.1) k)) eqn:Hhit.
    - rewrite (call_hit k s Hhit) in Hres |- *. simpl in *. congruence.
    - rewrite (call_miss k s Hhit) in Hres |- *.
      destruct (fetchFunction s.1 k (world s.2)) as [[r|reason] w];
        simpl in *; [|discriminate].
      injection Hres as ->. apply cache_get_set_eq. }
  assert (Hlater : cache_get (cache (after call later (call k s).2).1) k = v).
  { rewrite after_keeps_truthy; [done|]. now rewrite Hstored. }
  assert (Hhit : truthy (cache_get (cache (after call later (call k s).2).1) k)
                 = true) by now rewrite Hlater.
  split.
  - rewrite (call_hit _ _ Hhit). simpl. now rewrite Hlater.
  - now apply call_hit_fetches.
Qed.

(** *** First call *)

(** X14.  The first call with a key that names no property of
    [Object.prototype].  When the cache holds no entry for [k] and [k] is
    not such a name, a call that no other call overlaps logs, calls the
    fetch function exactly once, with [k], and settles as that call does;
    when it resolves with [r], the entry [(k, r)] is stored and [r]
    returned. *)
Theorem first_call_fetches_and_stores s k :
  cache s.1 !! k = None ->
  inherited k = None ->
  (call k s).1 = (fetchFunction s.1 k (world s.2)).1
  /\ world (call k s).2.2 = (fetchFunction s.1 k (world s.2)).2
  /\ trace (call k s).2.2
     = trace s.2 ++ [ConsoleLog "🌐 Fetching from API:" k;
                     FetchCall k (fetchFunction s.1 k (world s.2)).1]
  /\ fetches (trace (call k s).2.2) = fetches (trace s.2) ++ [k]
  /\ (forall r, (fetchFunction s.1 k (world s.2)).1 = Fulfilled r ->
        (call k s).1 = Fulfilled r
        /\ cache (call k s).2.1 = <[k := r]> (cache s.1)
        /\ cache (call k s).2.1 !! k = Some r).
Proof.
  intros Hnone Hk.
  assert (Hmiss : truthy (cache_get (cache s.1) k) = false)
    by now rewrite cache_get_fresh.
  rewrite (call_miss_fetches k s Hmiss), (call_miss k s Hmiss).
  destruct (fetchFunction s.1 k (world s.2)) as [[r|reason] w]; simpl.
  - do 4 (split; [done|]). intros ? [= <-].
    split; [done|]. split; [done|]. apply lookup_insert_eq.
  - do 4 (split; [done|]). discriminate.
Qed.

(** *** Failures *)

(** The wrapper has no failure of its own: a rejected call is a miss whose
    fetch was rejected with the same reason. *)
Lemma call_rejected_inv k s reason :
  (call k s).1 = Rejected reason ->
  truthy (cache_get (cache s.1) k) = false
  /\ (fetchFunction s.1 k (world s.2)).1 = Rejected reason.
Proof.
  destruct (truthy (cache_get (cache s.1) k)) eqn:Hhit.
  - now rewrite (call_hit k s Hhit).
  - rewrite (call_miss k s Hhit).
    now destruct (fetchFunction s.1 k (world s.2)) as [[r|e] w].
Qed.

(** A fulfilled miss returns what the fetch function resolved with. *)
Lemma call_fulfilled_miss k s r :
  truthy (cache_get (cache s.1) k) = false ->
  (call k s).1 = Fulfilled r ->
  (fetchFunction s.1 k (world s.2)).1 = Fulfilled r.
Proof.
  intros Hmiss. rewrite (call_miss k s Hmiss).
  now destruct (fetchFunction s.1 k (world s.2)) as [[r'|e] w].
Qed.

(** C3 (no caching of failures).  When the call with [k] reaches the fetch
    function and the fetch function fails with [reason], the wrapper fails
    with [reason], the closure (hence the cache) is what it was, and the
    next call with [k], directly or after calls [others] with other keys,
    calls the fetch function with [k] again. *)
Theorem failures_are_not_cached s k reason (w : World) (others : list string) :
  truthy (cache_get (cache s.1) k) = false ->
  fetchFunction s.1 k (world s.2) = (Rejected reason, w) ->
  k ∉ others ->
  (call k s).1 = Rejected reason
  /\ (call k s).2.1 = s.1
  /\ fetches (trace (call k s).2.2) = fetches (trace s.2) ++ [k]
  /\ fetches (trace (call k (after call others (call k s).2)).2.2)
     = fetches (trace (after call others (call k s).2).2) ++ [k].
Proof.
  intros Hmiss Hfail Hothers.
  assert (Hcall : (call k s).1 = Rejected reason /\ (call k s).2.1 = s.1).
  { rewrite (call_miss k s Hmiss), Hfail. done. }
  destruct Hcall as [Hres Hcl].
  split; [done|]. split; [done|]. split; [now apply call_miss_fetches|].
  apply call_miss_fetches.
  rewrite (cache_get_lookup (cache s.1)); [done|].
  rewrite after_other_keys by done. now rewrite Hcl.
Qed.

(** *** Key isolation *)

Lemma entries_fetched_call url s :
  entries_fetched s -> entries_fetched (call url s).2.
Proof.
  intros Hs k v. destruct (truthy (cache_get (cache s.1) url)) eqn:Hhit.
  - rewrite (call_hit url s Hhit); simpl. intros Hk.
    apply elem_of_app; left. now apply Hs.
  - rewrite (call_miss url s Hhit).
    destruct (fetchFunction s.1 url (world s.2)) as [[r|reason] w]; simpl.
    + unfold cache_set. intros Hk. apply elem_of_app.
      destruct (decide (url = k)) as [->|Hne].
      * rewrite lookup_insert_eq in Hk. injection Hk as ->.
        right. set_solver.
      * rewrite lookup_insert_ne in Hk by done. left. now apply Hs.
    + intros Hk. apply elem_of_app; left. now apply Hs.
Qed.

Lemma entries_fetched_after urls s :
  entries_fetched s -> entries_fetched (after call urls s).
Proof.
  apply (after_invariant call entries_fetched).
  intros url s' _. apply entries_fetched_call.
Qed.

(** What a call with [k] adds to the trace names no other key. *)
Lemma call_trace k s :
  exists new, trace (call k s).2.2 = trace s.2 ++ new
    /\ forall k' o, FetchCall k' o ∈ new -> k' = k.
Proof.
  destruct (truthy (cache_get (cache s.1) k)) eqn:Hhit.
  - rewrite (call_hit k s Hhit); simpl. eexists; split; [done|].
    intros k' o Hin. rewrite elem_of_cons, elem_of_nil in Hin.
    destruct Hin as [Hin|[]]. discriminate.
  - rewrite (call_miss k s Hhit).
    destruct (fetchFunction s.1 k (world s.2)) as [[r|reason] w]; simpl;
      (eexists; split; [done|]); intros k' o Hin;
      rewrite !elem_of_cons, elem_of_nil in Hin;
      destruct Hin as [Hin|[Hin|[]]]; congruence.
Qed.

(** X15.  Where the values come from.  For a wrapper created by
    [createAPICache(f)] and called in sequence with any keys [urls], a call
    with [k1] calls the fetch function with no key but [k1]; the value it
    returns was produced by the fetch function called with [k1], or it is
    the property of [Object.prototype] that [k1] names; and the outcome
    does not depend on an entry stored under a different key [k2], however
    close to [k1] its spelling. *)
Theorem key_isolation (f : string -> World -> Settled * World) (w0 : World)
    (urls : list string) (k1 : string) :
  (exists new,
     trace (call k1 (after call urls (createAPICache f, mkEnv w0 []))).2.2
     = trace (after call urls (createAPICache f, mkEnv w0 [])).2 ++ new
     /\ forall k o, FetchCall k o ∈ new -> k = k1)
  /\ (forall v,
        (call k1 (after call urls (createAPICache f, mkEnv w0 []))).1
        = Fulfilled v ->
        FetchCall k1 (Fulfilled v)
          ∈ trace (call k1 (after call urls (createAPICache f, mkEnv w0 []))).2.2
        \/ inherited k1 = Some v)
  /\ (forall k2 x c (e : Env World), k2 ≠ k1 ->
        (call k1 (mkClosure f (<[k2 := x]> c), e)).1
        = (call k1 (mkClosure f c, e)).1).
Proof.
  split; [apply call_trace|]. split.
  - set (s := after call urls (createAPICache f, mkEnv w0 [])).
    assert (Hinv : entries_fetched s).
    { apply entries_fetched_after. intros k v. simpl.
      now rewrite lookup_empty. }
    intros v Hres.
    destruct (truthy (cache_get (cache s.1) k1)) eqn:Hhit.
    + rewrite (call_hit k1 s Hhit) in Hres |- *. simpl in Hres.
      injection Hres as Hv. rewrite Hv in Hhit. unfold cache_get in Hv.
      destruct (cache s.1 !! k1) as [v'|] eqn:Hown.
      * left. simpl. apply elem_of_app; left. apply Hinv. congruence.
      * destruct (inherited k1) as [v'|] eqn:Hinh; simpl in Hv.
        -- right. congruence.
        -- subst v. discriminate.
    + left. apply (entries_fetched_call k1 s Hinv).
      rewrite (call_miss k1 s Hhit) in Hres |- *.
      destruct (fetchFunction s.1 k1 (world s.2)) as [[r|reason] w];
        simpl in *; [|discriminate].
      injection Hres as ->. apply lookup_insert_eq.
  - intros k2 x c e Hne.
    assert (Hget : cache_get (<[k2 := x]> c) k1 = cache_get c k1).
    { apply cache_get_lookup. now apply lookup_insert_ne. }
    destruct (truthy (cache_get c k1)) eqn:Hhit.
    + rewrite !call_hit; simpl; now rewrite ?Hget.
    + rewrite !call_miss; simpl; rewrite ?Hget; [|done..].
      now destruct (f k1 (world e)) as [[r|reason] w].
Qed.

(** *** Frame *)

(** X16.  What one call writes.  A call with [k] that no other call
    overlaps leaves the cache as it was or writes the entry of [k], adding
    it or overwriting it; no entry disappears and at most one appears, for
    [k]; the entries of all other keys keep their presence and value; and
    a hit changes nothing at all. *)
Theorem call_frame s k :
  (cache (call k s).2.1 = cache s.1
   \/ exists r, cache (call k s).2.1 = <[k := r]> (cache s.1))
  /\ dom (cache s.1) ⊆ dom (cache (call k s).2.1)
  /\ dom (cache (call k s).2.1) ⊆ dom (cache s.1) ∪ {[k]}
  /\ (size (cache (call k s).2.1) <= S (size (cache s.1)))%nat
  /\ (forall k', k' ≠ k -> cache (call k s).2.1 !! k' = cache s.1 !! k')
  /\ (truthy (cache_get (cache s.1) k) = true -> (call k s).2.1 = s.1)
  /\ fetchFunction (call k s).2.1 = fetchFunction s.1.
Proof.
  pose proof (call_fetchFunction k s) as Hf.
  assert (Hhit : truthy (cache_get (cache s.1) k) = true -> (call k s).2.1 = s.1).
  { intros Hhit. now rewrite (call_hit k s Hhit). }
  assert (Hother : forall k', k' ≠ k -> cache (call k s).2.1 !! k' = cache s.1 !! k').
  { intros k' Hne. now apply call_other_key. }
  destruct (call_cache k s) as [Heq|(_ & r & _ & Heq)].
  - split; [now left|].
    split; [now rewrite Heq|]. split; [rewrite Heq; set_solver|].
    split; [rewrite Heq; lia|]. done.
  - split; [right; now exists r|].
    split; [rewrite Heq, dom_insert_L; apply union_subseteq_r|].
    split; [rewrite Heq, dom_insert_L, (comm_L (∪)); done|].
    split; [|done]. rewrite Heq.
    destruct (cache s.1 !! k) as [v|] eqn:Hk.
    + rewrite map_size_insert_Some by eauto. lia.
    + rewrite map_size_insert_None by done. lia.
Qed.

(** *** Truthiness *)

Lemma calls_of_app k (l1 l2 : list string) :
  calls_of k (l1 ++ l2) = (calls_of k l1 + calls_of k l2)%nat.
Proof. unfold calls_of. now rewrite filter_app, length_app. Qed.

Lemma calls_of_cons k url (l : list string) :
  calls_of k (url :: l) = (calls_of k [url] + calls_of k l)%nat.
Proof. apply (calls_of_app k [url] l). Qed.

Lemma call_calls_of k url s :
  truthy (cache_get (cache s.1) k) = false ->
  calls_of k (fetches (trace (call url s).2.2))
  = (calls_of k (fetches (trace s.2)) + calls_of k [url])%nat.
Proof.
  intros Hk. destruct (truthy (cache_get (cache s.1) url)) eqn:Hhit.
  - rewrite call_hit_fetches by done.
    assert (url ≠ k) by (intros ->; congruence).
    unfold calls_of at 3. rewrite filter_cons_False by done. simpl. lia.
  - rewrite call_miss_fetches by done. apply calls_of_app.
Qed.

(** While the fetch function resolves with falsy values for [k], the
    entry of [k] stays falsy. *)
Lemma call_keeps_falsy k url s :
  resolves_falsy (fetchFunction s.1) k ->
  truthy (cache_get (cache s.1) k) = false ->
  truthy (cache_get (cache (call url s).2.1) k) = false.
Proof.
  intros Hf Hk.
  destruct (call_cache url s) as [->|(Hmiss & r & Hres & Hc)]; [done|].
  destruct (decide (url = k)) as [->|Hne].
  - rewrite Hc. unfold cache_get. rewrite lookup_insert_eq.
    apply (Hf (world s.2)). now apply call_fulfilled_miss.
  - rewrite (cache_get_lookup (cache s.1)); [done|].
    rewrite Hc. now apply lookup_insert_ne.
Qed.

(** Then every call with [k] reaches the fetch function. *)
Lemma falsy_results_never_hit k (urls : list string) : forall s,
  resolves_falsy (fetchFunction s.1) k ->
  truthy (cache_get (cache s.1) k) = false ->
  calls_of k (fetches (trace (after call urls s).2))
  = (calls_of k (fetches (trace s.2)) + calls_of k urls)%nat.
Proof.
  induction urls as [|url urls IH]; intros s Hf Hk.
  - rewrite after_nil. unfold calls_of at 3. simpl. lia.
  - rewrite after_cons, IH.
    + rewrite (call_calls_of k url s Hk), (calls_of_cons k url urls). lia.
    + now rewrite call_fetchFunction.
    + now apply call_keeps_falsy.
Qed.

(** C8 (cache hits are truthiness-gated).  A call with [k] is served from
    the cache when [cache[k]] is truthy; a stored entry that is falsy is
    not served: the fetch function is called again; when the fetch
    function resolved with a falsy [r] (undefined, null, false, 0, NaN or
    the empty string), [r] is stored and the next call with [k], directly
    or after calls [others] with other keys, calls the fetch function
    again; and while the fetch function resolves with falsy values for [k],
    every call with [k] of any sequence of calls reaches it. *)
Theorem cache_hits_are_truthiness_gated s k :
  (truthy (cache_get (cache s.1) k) = true ->
     (call k s).1 = Fulfilled (cache_get (cache s.1) k)
     /\ fetches (trace (call k s).2.2) = fetches (trace s.2))
  /\ (forall v, cache s.1 !! k = Some v -> truthy v = false ->
        (call k s).1 = (fetchFunction s.1 k (world s.2)).1
        /\ fetches (trace (call k s).2.2) = fetches (trace s.2) ++ [k])
  /\ (forall r (others : list string),
        (call k s).1 = Fulfilled r ->
        r ∈ [VUndefined; VNull; VBool false; VNum 0; VNaN; VStr EmptyString] ->
        k ∉ others ->
        cache (after call others (call k s).2).1 !! k = Some r
        /\ fetches (trace (call k (after call others (call k s).2)).2.2)
           = fetches (trace (after call others (call k s).2).2) ++ [k])
  /\ (forall urls : list string,
        resolves_falsy (fetchFunction s.1) k ->
        truthy (cache_get (cache s.1) k) = false ->
        calls_of k (fetches (trace (after call urls s).2))
        = (calls_of k (fetches (trace s.2)) + calls_of k urls)%nat).
Proof.
  split; [|split; [|split]];
    [| | |intros urls; apply falsy_results_never_hit].
  - intros Hhit. split; [now rewrite (call_hit k s Hhit)|].
    now apply call_hit_fetches.
  - intros v Hown Hv.
    assert (Hmiss : truthy (cache_get (cache s.1) k) = false)
      by now rewrite (cache_get_own _ _ _ Hown).
    split; [|now apply call_miss_fetches].
    rewrite (call_miss k s Hmiss).
    now destruct (fetchFunction s.1 k (world s.2)) as [[r|reason] w].
  - intros r others Hres Hr%falsy_values Hothers.
    assert (Hstored : cache (call k s).2.1 !! k = Some r).
    { destruct (truthy (cache_get (cache s.1) k)) eqn:Hhit.
      - rewrite (call_hit k s Hhit) in Hres. simpl in Hres. congruence.
      - rewrite (call_miss k s Hhit) in Hres |- *.
        destruct (fetchFunction s.1 k (world s.2)) as [[r'|reason] w];
          simpl in *; [|discriminate].
        injection Hres as ->. apply lookup_insert_eq. }
    assert (Hlater : cache (after call others (call k s).2).1 !! k = Some r).
    { now rewrite after_other_keys. }
    split; [done|]. apply call_miss_fetches.
    now rewrite (cache_get_own _ _ _ Hlater).
Qed.

(** *** Several wrappers *)

Implicit Types (st : Store World) (wr : Wrapper World).

(** The wrapper in a store is the wrapper on its own cache object. *)
Lemma wrapper_in_wrapper url wr st cache :
  objects st !! cacheRef wr = Some cache ->
  wrapper_in url wr st =
    (Some (wrapper url (mkClosure (fetchOf wr) cache) (shared st)).1.1,
     mkStore
       (<[cacheRef wr :=
            APICache.cache
              (wrapper url (mkClosure (fetchOf wr) cache) (shared st)).1.2]>
          (objects st))
       (wrapper url (mkClosure (fetchOf wr) cache) (shared st)).2).
Proof.
  intros Hc. unfold wrapper_in, wrapper. rewrite Hc. simpl.
  destruct (truthy (cache_get cache url)); simpl.
  - now rewrite list_insert_id.
  - destruct (fetchOf wr url (world (shared st))) as [[r|e] w]; simpl;
      [done|now rewrite list_insert_id].
Qed.









End CacheFacts.

(** ** The wrapper on concrete fetch functions *)

Section CacheScenarios.
Import APICache.

(** The theorem on the wrapper of [fakeFetch]: "A", then "B" and "A",
    then "A" again. *)
Lemma memoization_witness :
  (call "A" (after call ["B"; "A"]%string
               (call "A" (createAPICache fakeFetch, mkEnv 0%nat [])).2)).1
  = Fulfilled (VStr "Data from A").
Proof.
  apply (memoization_of_truthy_results
           (createAPICache fakeFetch, mkEnv 0%nat []) "A"
           (VStr "Data from A") ["B"; "A"]%string);
    reflexivity.
Defined.

(** C1 (idempotent memoization) fails in the code on a falsy result.
    With a fetch function that resolves with 0 and then with 1, the first
    call with "k" resolves with 0, which is stored; the second call with
    "k" does not return the stored 0: it calls the fetch function again
    and returns 1. *)
Lemma memoization_counterexample :
  (call "k" (createAPICache counterFetch, mkEnv 0 [])).1 = Fulfilled (VNum 0)
  /\ (call "k" (call "k" (createAPICache counterFetch, mkEnv 0 [])).2).1
     = Fulfilled (VNum 1)
  /\ fetches (trace (call "k" (call "k" (createAPICache counterFetch,
                                         mkEnv 0 [])).2).2.2)
     = ["k"; "k"]%string.
Proof. repeat split. Qed.

(** The first call with "A" of a wrapper of [fakeFetch]. *)
Lemma first_call_witness :
  (call "A" (createAPICache fakeFetch, mkEnv 0%nat [])).1
  = Fulfilled (VStr "Data from A")
  /\ cache (call "A" (createAPICache fakeFetch, mkEnv 0%nat [])).2.1 !! "A"%string
     = Some (VStr "Data from A").
Proof.
  pose proof (first_call_fetches_and_stores
                (createAPICache fakeFetch, mkEnv 0%nat []) "A"
                eq_refl eq_refl) as (_ & _ & _ & _ & H).
  destruct (H (VStr "Data from A") eq_refl) as (H1 & _ & H2).
  exact (conj H1 H2).
Defined.

(** C2 (first call) fails in the code on a key that [{}] inherits.  A
    new cache holds no entry for "toString", yet the first call with
    "toString" returns the function [Object.prototype.toString] and never
    calls the fetch function (no timer is set, nothing is stored). *)
Lemma first_call_counterexample :
  cache (createAPICache fakeFetch) !! "toString"%string = None
  /\ (call "toString" (createAPICache fakeFetch, mkEnv 0%nat [])).1
     = Fulfilled (VObj (ObjectProtoMethod "toString"))
  /\ fetches (trace (call "toString"
                       (createAPICache fakeFetch, mkEnv 0%nat [])).2.2) = []
  /\ world (call "toString" (createAPICache fakeFetch, mkEnv 0%nat [])).2.2
     = 0%nat
  /\ cache (call "toString" (createAPICache fakeFetch, mkEnv 0%nat [])).2.1
     = ∅.
Proof. repeat split. Qed.


(** C5 (scenario).  A wrapper of [fakeFetch]: the first call with "A"
    calls [fakeFetch] and returns "Data from A"; the second call with "A"
    returns "Data from A" and the number of calls of [fakeFetch] is still
    1; the call with "B" returns "Data from B" and that number becomes 2. *)
Theorem fakeFetch_scenario :
  outputs call ["A"; "A"; "B"]%string (createAPICache fakeFetch, mkEnv 0%nat [])
  = [ Fulfilled (VStr "Data from A");
      Fulfilled (VStr "Data from A");
      Fulfilled (VStr "Data from B") ]
  /\ fetches (trace (after call ["A"]%string
                       (createAPICache fakeFetch, mkEnv 0%nat [])).2)
     = ["A"]%string
  /\ fetches (trace (after call ["A"; "A"]%string
                       (createAPICache fakeFetch, mkEnv 0%nat [])).2)
     = ["A"]%string
  /\ fetches (trace (after call ["A"; "A"; "B"]%string
                       (createAPICache fakeFetch, mkEnv 0%nat [])).2)
     = ["A"; "B"]%string
  /\ world (after call ["A"; "A"]%string
              (createAPICache fakeFetch, mkEnv 0%nat [])).2 = 1%nat
  /\ world (after call ["A"; "A"; "B"]%string
              (createAPICache fakeFetch, mkEnv 0%nat [])).2 = 2%nat.
Proof. repeat split. Qed.

(** The console of the scenario, as the source file prints it. *)
Example fakeFetch_console :
  trace (after call ["https://api.com/users/1"; "https://api.com/users/1";
                     "https://api.com/users/2"]%string
           (createAPICache fakeFetch, mkEnv 0%nat [])).2
  = [ ConsoleLog "🌐 Fetching from API:" "https://api.com/users/1";
      FetchCall "https://api.com/users/1"
        (Fulfilled (VStr "Data from https://api.com/users/1"));
      ConsoleLog "📦 Returning from cache:" "https://api.com/users/1";
      ConsoleLog "🌐 Fetching from API:" "https://api.com/users/2";
      FetchCall "https://api.com/users/2"
        (Fulfilled (VStr "Data from https://api.com/users/2")) ].
Proof. reflexivity. Qed.

(** A server that is down at the first call with "X": the call fails,
    nothing is stored, and the next call with "X" reaches the server. *)
Lemma failures_witness :
  (call "X" (createAPICache flakyFetch, mkEnv false [])).1
  = Rejected (VStr "down")
  /\ (call "X" (createAPICache flakyFetch, mkEnv false [])).2.1
     = createAPICache flakyFetch
  /\ fetches (trace (call "X" (createAPICache flakyFetch, mkEnv false [])).2.2)
     = ["X"]%string
  /\ fetches (trace (call "X" (after call ["Y"]%string
                (call "X" (createAPICache flakyFetch, mkEnv false [])).2)).2.2)
     = fetches (trace (after call ["Y"]%string
                (call "X" (createAPICache flakyFetch, mkEnv false [])).2).2)
       ++ ["X"]%string.
Proof.
  apply (failures_are_not_cached
           (createAPICache flakyFetch, mkEnv false []) "X" (VStr "down") true
           ["Y"]%string).
  - reflexivity.
  - reflexivity.
  - intros Hin. apply list_elem_of_singleton in Hin. discriminate.
Defined.

(** C4 (key isolation) fails in the code on a key that [{}] inherits.
    The call with "valueOf" returns the function
    [Object.prototype.valueOf], a value that [fakeFetch] never produced:
    [fakeFetch] was not called at all. *)
Lemma key_isolation_counterexample :
  (call "valueOf" (createAPICache fakeFetch, mkEnv 0%nat [])).1
  = Fulfilled (VObj (ObjectProtoMethod "valueOf"))
  /\ trace (call "valueOf" (createAPICache fakeFetch, mkEnv 0%nat [])).2.2
     = [ConsoleLog "📦 Returning from cache:" "valueOf"]
  /\ forall url timers,
       (fakeFetch url timers).1 ≠ Fulfilled (VObj (ObjectProtoMethod "valueOf")).
Proof. repeat split. intros url timers. discriminate. Qed.

(** C7 (frame) fails in the code on a stored falsy entry.  With a fetch
    function that resolves with 0 and then with 1, the first call with "k"
    adds the entry 0; the second call with "k" adds nothing, the cache
    still has one entry, but it changes that entry from 0 to 1. *)
Lemma frame_overwrites_falsy_entry :
  cache (after call ["k"]%string (createAPICache counterFetch, mkEnv 0 [])).1
    !! "k"%string = Some (VNum 0)
  /\ size (cache (after call ["k"]%string
                    (createAPICache counterFetch, mkEnv 0 [])).1) = 1%nat
  /\ cache (after call ["k"; "k"]%string
              (createAPICache counterFetch, mkEnv 0 [])).1
       !! "k"%string = Some (VNum 1)
  /\ size (cache (after call ["k"; "k"]%string
                    (createAPICache counterFetch, mkEnv 0 [])).1) = 1%nat.
Proof. repeat split. Qed.



(** The falsy results of C8 on a fetch function that always resolves with
    the same value: every call with "k" reaches the fetch function. *)
Example falsy_results_are_fetched_again :
  Forall (fun v =>
            fetches (trace (after call ["k"; "k"; "k"]%string
                              (createAPICache (constFetch v), mkEnv () [])).2)
            = ["k"; "k"; "k"]%string)
    [VStr EmptyString; VNum 0; VBool false; VNull; VUndefined; VNaN].
Proof. repeat constructor. Qed.

(** A fetch function that resolves with 0: the entry 0 is stored, and
    fetched again. *)
Lemma truthiness_witness :
  cache (after call ["j"]%string
           (call "k" (createAPICache (constFetch (VNum 0)), mkEnv () [])).2).1
    !! "k"%string = Some (VNum 0)
  /\ fetches (trace (call "k" (after call ["j"]%string
       (call "k" (createAPICache (constFetch (VNum 0)), mkEnv () [])).2)).2.2)
     = fetches (trace (after call ["j"]%string
         (call "k" (createAPICache (constFetch (VNum 0)), mkEnv () [])).2).2)
       ++ ["k"]%string.
Proof.
  apply (proj1 (proj2 (proj2 (cache_hits_are_truthiness_gated
           (createAPICache (constFetch (VNum 0)), mkEnv () []) "k")))
           (VNum 0) ["j"]%string).
  - reflexivity.
  - set_solver.
  - intros Hin. apply list_elem_of_singleton in Hin. discriminate.
Defined.

(** A key differing by a trailing slash is another key. *)
Example no_key_normalization :
  fetches (trace (after call ["https://api.com/users/1";
                              "https://api.com/users/1/";
                              "https://api.com/users/1"]%string
                    (createAPICache fakeFetch, mkEnv 0%nat [])).2)
  = ["https://api.com/users/1"; "https://api.com/users/1/"]%string.
Proof. reflexivity. Qed.

(** What a wrapper of [fakeFetch] returns for "A" was fetched for "A". *)
Lemma key_isolation_witness :
  FetchCall "A" (Fulfilled (VStr "Data from A"))
    ∈ trace (call "A" (after call ["B"; "A"]%string
                         (createAPICache fakeFetch, mkEnv 0%nat []))).2.2
  \/ inherited "A" = Some (VStr "Data from A").
Proof.
  apply (proj1 (proj2 (key_isolation fakeFetch 0%nat ["B"; "A"]%string "A"))).
  reflexivity.
Defined.

(** A hit leaves the closure as it was. *)
Lemma frame_witness :
  (call "A" (after call ["A"]%string
               (createAPICache fakeFetch, mkEnv 0%nat []))).2.1
  = (after call ["A"]%string (createAPICache fakeFetch, mkEnv 0%nat [])).1.
Proof.
  apply (call_frame (after call ["A"]%string
                       (createAPICache fakeFetch, mkEnv 0%nat [])) "A").
  reflexivity.
Defined.
End CacheScenarios.

(** * Further properties of the examples *)

(** ** The counter *)

Section CounterFacts.
Import Counter.

Lemma net_cons_inc ms : net (inc :: ms) = net ms + 1.
Proof.
  unfold net. rewrite filter_cons_True by done.
  rewrite (filter_cons_False (fun m => m = dec)) by done. simpl length. lia.
Qed.

Lemma net_cons_dec ms : net (dec :: ms) = net ms - 1.
Proof.
  unfold net. rewrite filter_cons_False by done.
  rewrite (filter_cons_True (fun m => m = dec)) by done. simpl length. lia.
Qed.

Lemma counter_run ms : forall count,
  outputs invoke ms count = imap (fun i _ => count + net (take (S i) ms)) ms
  /\ after invoke ms count = count + net ms.
Proof.
  induction ms as [|m ms IH]; intros count.
  - split; [done|]. rewrite after_nil. unfold net; simpl. lia.
  - rewrite outputs_cons, after_cons, imap_cons.
    destruct m; simpl invoke; simpl fst; simpl snd.
    + destruct (IH (count + 1)) as [-> ->]. split.
      * f_equal.
        apply imap_ext; intros i m _. unfold compose. simpl take.
        rewrite net_cons_inc. lia.
      * rewrite net_cons_inc. lia.
    + destruct (IH (count - 1)) as [-> ->]. split.
      * f_equal.
        apply imap_ext; intros i m _. unfold compose. simpl take.
        rewrite net_cons_dec. lia.
      * rewrite net_cons_dec. lia.
Qed.

(** X1.  [inc] and [dec] share one count: in any sequence of calls of the
    two functions of one counter, each call returns the number of calls of
    [inc] minus the number of calls of [dec] made so far, itself included;
    the count left depends on these two numbers only, not on the order. *)
Theorem counter_returns_net_count (ms : list Method) :
  outputs invoke ms counter = imap (fun i _ => net (take (S i) ms)) ms
  /\ after invoke ms counter = net ms
  /\ (forall ms', ms' ≡ₚ ms -> after invoke ms' counter = after invoke ms counter).
Proof.
  destruct (counter_run ms counter) as [Hout Haft]. unfold counter in *.
  split; [|split].
  - rewrite Hout. apply imap_ext; intros i m _. lia.
  - rewrite Haft. lia.
  - intros ms' Hp. rewrite Haft.
    destruct (counter_run ms' 0) as [_ ->]. unfold net. now rewrite Hp.
Qed.

End CounterFacts.

(** ** The login attempt tracker *)

Section LoginMore.
Import Login.

Lemma wrong_app h1 h2 : wrong (h1 ++ h2) = wrong h1 + wrong h2.
Proof. unfold wrong. rewrite filter_app, length_app. lia. Qed.

Lemma answer_by_cases h p :
  answer h p =
    if 3 <=? wrong h then "Account locked!"%string
    else if String.eqb p "secret123" then "Login successful!"%string
    else ("Wrong password! " +:+ pretty (2 - wrong h) +:+ " tries left")%string.
Proof.
  pose proof (wrong_nonneg h) as H0.
  unfold answer. rewrite attempts_history.
  destruct (Z.leb_spec 3 (wrong h)) as [H3|H3].
  - now replace (Z.min 3 (wrong h)) with 3 by lia.
  - replace (Z.min 3 (wrong h)) with (wrong h) by lia. unfold login.
    destruct (Z.leb_spec maxAttempts (wrong h)) as [Hl|_];
      [unfold maxAttempts in Hl; lia|].
    destruct (String.eqb p "secret123"); [done|]. simpl fst.
    now replace (maxAttempts - (wrong h + 1)) with (2 - wrong h)
      by (unfold maxAttempts; lia).
Qed.

(** X2.  What the closure answers depends on the number of wrong passwords
    it has seen, and on nothing else of the past: locked from three on;
    before that, success for "secret123" and otherwise the tries left,
    2 minus the wrong passwords seen.  The counter stays between 0 and 3,
    and a successful login does not reset it. *)
Theorem login_answer_spec (history : list string) (password : string) :
  answer history password =
    (if 3 <=? wrong history then "Account locked!"%string
     else if String.eqb password "secret123" then "Login successful!"%string
     else ("Wrong password! " +:+ pretty (2 - wrong history)
             +:+ " tries left")%string)
  /\ 0 <= after login history loginSystem <= maxAttempts
  /\ after login (history ++ ["secret123"%string]) loginSystem
     = after login history loginSystem.
Proof.
  pose proof (wrong_nonneg history) as H0.
  split; [apply answer_by_cases|]. split.
  - rewrite attempts_history. unfold maxAttempts. lia.
  - rewrite !attempts_history, wrong_app.
    replace (wrong ["secret123"%string]) with 0 by reflexivity. f_equal; lia.
Qed.

(** X3.  The lock is permanent: once the closure has answered "Account
    locked!", it answers "Account locked!" to every later call, whatever
    the passwords. *)
Theorem login_lock_is_permanent (history later : list string)
    (password password' : string) :
  answer history password = "Account locked!"%string ->
  answer (history ++ later) password' = "Account locked!"%string.
Proof.
  rewrite !answer_by_cases, wrong_app. intros Hlocked.
  pose proof (wrong_nonneg later) as H0.
  destruct (Z.leb_spec 3 (wrong history)) as [H3|H3].
  - now destruct (Z.leb_spec 3 (wrong history + wrong later)); [|lia].
  - exfalso. destruct (String.eqb password "secret123"); discriminate.
Qed.

Lemma wrong_answers_run h : forall a,
  0 <= a <= 3 ->
  Z.of_nat (length (filter (fun x => wrong_answer x = true)
                      (outputs login h a)))
  = Z.min 3 (a + wrong h) - a.
Proof.
  induction h as [|p h IH]; intros a Ha.
  - unfold wrong; simpl. lia.
  - pose proof (wrong_nonneg h) as H0.
    rewrite outputs_cons. unfold login at 1 3.
    destruct (Z.leb_spec maxAttempts a) as [Hl|Hl]; simpl fst; simpl snd.
    + rewrite filter_cons_False by (simpl; discriminate).
      rewrite IH by done. pose proof (wrong_nonneg (p :: h)).
      unfold maxAttempts in *. lia.
    + destruct (String.eqb_spec p "secret123") as [->|Hp]; simpl fst; simpl snd.
      * rewrite filter_cons_False by (simpl; discriminate).
        rewrite IH by done. now rewrite wrong_cons_ok.
      * rewrite filter_cons_True by reflexivity.
        simpl length. rewrite Nat2Z.inj_succ.
        rewrite IH by (unfold maxAttempts in *; lia).
        rewrite (wrong_cons_bad p h Hp). lia.
Qed.

(** X4.  Guessing is bounded: over the whole life of the closure, the
    answers that report a wrong password are as many as the wrong
    passwords given, up to three, and never more than three. *)
Theorem login_at_most_three_wrong_answers (history : list string) :
  length (filter (fun a => wrong_answer a = true)
            (outputs login history loginSystem))
  = Z.to_nat (Z.min 3 (wrong history))
  /\ (length (filter (fun a => wrong_answer a = true)
                (outputs login history loginSystem)) <= 3)%nat.
Proof.
  pose proof (wrong_answers_run history 0 ltac:(lia)) as H.
  pose proof (wrong_nonneg history) as H0.
  unfold loginSystem. split; lia.
Qed.

(** Three wrong passwords lock the closure for good. *)
Lemma login_lock_witness :
  answer ["a"; "b"; "c"; "secret123"; "d"]%string "secret123"
  = "Account locked!"%string.
Proof.
  apply (login_lock_is_permanent ["a"; "b"; "c"]%string
           ["secret123"; "d"]%string "e" "secret123").
  reflexivity.
Defined.

End LoginMore.

(** ** The API cache over whole runs *)

Section CacheMore.
Import APICache.
Context {World : Type}.
Implicit Types (s : Closure World * Env World) (k url : string).
Implicit Types (c : gmap string JsVal) (v r : JsVal).
Implicit Types (f : string -> World -> Settled * World).

(** *** Failures *)

Lemma fetch_outcomes_app (t1 t2 : list Event) :
  fetch_outcomes (t1 ++ t2) = fetch_outcomes t1 ++ fetch_outcomes t2.
Proof.
  induction t1 as [|[msg arg|url o] t1 IH]; simpl; [done|done|now f_equal].
Qed.

Lemma call_rejections url s :
  omap rejection (fetch_outcomes (trace (call url s).2.2))
  = omap rejection (fetch_outcomes (trace s.2))
    ++ omap rejection [(call url s).1].
Proof.
  destruct (truthy (cache_get (cache s.1) url)) eqn:Hhit.
  - rewrite (call_hit url s Hhit). simpl.
    rewrite fetch_outcomes_app. simpl. now rewrite !app_nil_r.
  - rewrite (call_miss url s Hhit).
    destruct (fetchFunction s.1 url (world s.2)) as [[r|reason] w]; simpl;
      now rewrite fetch_outcomes_app, omap_app.
Qed.

Lemma after_rejections (urls : list string) : forall s,
  omap rejection (fetch_outcomes (trace (after call urls s).2))
  = omap rejection (fetch_outcomes (trace s.2))
    ++ omap rejection (outputs call urls s).
Proof.
  induction urls as [|url urls IH]; intros s.
  - rewrite after_nil. simpl. now rewrite app_nil_r.
  - rewrite after_cons, outputs_cons, IH, call_rejections, <- app_assoc.
    f_equal. now rewrite <- omap_app.
Qed.

(** X11.  The wrapper swallows no failure and adds none: over any run of
    a new wrapper, the reasons its calls are rejected with are the reasons
    the fetch function was rejected with, one for one and in order; and a
    call is rejected only when it reached the fetch function. *)
Theorem wrapper_passes_failures_on f (w0 : World) (urls : list string) :
  omap rejection (outputs call urls (createAPICache f, mkEnv w0 []))
  = omap rejection
      (fetch_outcomes
         (trace (after call urls (createAPICache f, mkEnv w0 [])).2))
  /\ (forall s k reason,
        (call k s).1 = Rejected reason <->
        truthy (cache_get (cache s.1) k) = false
        /\ (fetchFunction s.1 k (world s.2)).1 = Rejected reason).
Proof.
  split; [now rewrite after_rejections|].
  intros s k reason. split; [apply call_rejected_inv|].
  intros [Hmiss Hf]. rewrite (call_miss k s Hmiss).
  destruct (fetchFunction s.1 k (world s.2)) as [[r|e] w]; simpl in *;
    congruence.
Qed.

(** *** The keys that [{}] inherits *)

Lemma inherited_untouched_call url s :
  (forall k, is_Some (inherited k) ->
     cache s.1 !! k = None /\ k ∉ fetches (trace s.2)) ->
  forall k, is_Some (inherited k) ->
    cache (call url s).2.1 !! k = None /\ k ∉ fetches (trace (call url s).2.2).
Proof.
  intros Hs k Hk. destruct (Hs k Hk) as [Hnone Hnot].
  destruct (truthy (cache_get (cache s.1) url)) eqn:Hhit.
  - rewrite call_hit_fetches by done. now rewrite (call_hit url s Hhit).
  - assert (Hne : url ≠ k).
    { intros ->. destruct Hk as [v Hv].
      unfold cache_get in Hhit. rewrite Hnone, Hv in Hhit. simpl in Hhit.
      rewrite (inherited_truthy k v Hv) in Hhit. discriminate. }
    rewrite call_miss_fetches by done. split.
    + now rewrite call_other_key.
    + rewrite elem_of_app, list_elem_of_singleton. intros [H|H]; [done|].
      now apply Hne.
Qed.

(** X5.  The names that the cache object inherits are not keys of the
    cache: in any run of a new wrapper, with any fetch function, a key
    such as "constructor" or "hasOwnProperty" is never stored and never
    passed to the fetch function; a call with it returns the inherited
    property, every time. *)
Theorem inherited_keys_are_never_fetched f (w0 : World) (urls : list string)
    k v :
  inherited k = Some v ->
  cache (after call urls (createAPICache f, mkEnv w0 [])).1 !! k = None
  /\ (k ∉ fetches (trace (after call urls (createAPICache f, mkEnv w0 [])).2))
  /\ (call k (after call urls (createAPICache f, mkEnv w0 []))).1
     = Fulfilled v
  /\ fetches (trace (call k (after call urls
                               (createAPICache f, mkEnv w0 []))).2.2)
     = fetches (trace (after call urls (createAPICache f, mkEnv w0 [])).2).
Proof.
  intros Hk. set (s := after call urls (createAPICache f, mkEnv w0 [])).
  assert (Hs : forall k', is_Some (inherited k') ->
            cache s.1 !! k' = None /\ k' ∉ fetches (trace s.2)).
  { apply (after_invariant call
             (fun s' => forall k', is_Some (inherited k') ->
                cache s'.1 !! k' = None /\ k' ∉ fetches (trace s'.2))).
    - intros url s' _. apply inherited_untouched_call.
    - intros k' _. simpl. split; [apply lookup_empty|apply not_elem_of_nil]. }
  destruct (Hs k) as [Hnone Hnot]; [eauto|].
  assert (Hget : cache_get (cache s.1) k = v).
  { unfold cache_get. now rewrite Hnone, Hk. }
  assert (Hhit : truthy (cache_get (cache s.1) k) = true).
  { rewrite Hget. now apply (inherited_truthy k). }
  split; [done|]. split; [done|]. split.
  - rewrite (call_hit k s Hhit). simpl. now rewrite Hget.
  - now apply call_hit_fetches.
Qed.

(** *** One fetch per key *)

Lemma fetched_once_call url s :
  always_truthy (fetchFunction s.1) ->
  fetched_once s ->
  fetched_once (call url s).2
  /\ forall k, is_Some (cache (call url s).2.1 !! k) <->
       is_Some (cache s.1 !! k) \/ (k = url /\ inherited k = None).
Proof.
  intros Hf (Hval & Hmem & Hnd).
  destruct (truthy (cache_get (cache s.1) url)) eqn:Hhit.
  - assert (Hown : inherited url = None -> is_Some (cache s.1 !! url)).
    { intros Hinh. unfold cache_get in Hhit.
      destruct (cache s.1 !! url); [eauto|].
      rewrite Hinh in Hhit. discriminate. }
    split.
    + unfold fetched_once. rewrite call_hit_fetches by done.
      now rewrite (call_hit url s Hhit).
    + intros k. rewrite (call_hit url s Hhit). simpl. split; [tauto|].
      intros [H|[-> H]]; [done|now apply Hown].
  - assert (Hnone : cache s.1 !! url = None).
    { destruct (cache s.1 !! url) as [v|] eqn:Hown; [|done].
      destruct (Hval url v Hown) as [Hv _].
      rewrite (cache_get_own _ _ _ Hown) in Hhit. congruence. }
    assert (Hinh : inherited url = None).
    { destruct (inherited url) as [v|] eqn:Hv; [|done].
      unfold cache_get in Hhit. rewrite Hnone, Hv in Hhit. simpl in Hhit.
      rewrite (inherited_truthy url v Hv) in Hhit. discriminate. }
    destruct (Hf url (world s.2)) as (r & Hres & Hr).
    assert (Hcall : cache (call url s).2.1 = <[url := r]> (cache s.1)).
    { rewrite (call_miss url s Hhit).
      destruct (fetchFunction s.1 url (world s.2)) as [[r'|e] w];
        simpl in *; [|discriminate].
      injection Hres as ->. reflexivity. }
    split.
    + unfold fetched_once. rewrite call_miss_fetches by done. rewrite Hcall.
      split; [|split].
      * intros k v. destruct (decide (url = k)) as [<-|Hne].
        -- rewrite lookup_insert_eq. now intros [= <-].
        -- rewrite lookup_insert_ne by done. apply Hval.
      * intros k. rewrite elem_of_app, list_elem_of_singleton, Hmem.
        rewrite lookup_insert_is_Some. destruct (decide (url = k)); intuition congruence.
      * apply NoDup_app. split; [done|]. split; [|apply NoDup_singleton].
        intros k Hk ->%list_elem_of_singleton.
        apply Hmem in Hk. rewrite Hnone in Hk. now destruct Hk.
    + intros k. rewrite Hcall, lookup_insert_is_Some.
      destruct (decide (url = k)); intuition congruence.
Qed.

Lemma fetched_once_after (urls : list string) : forall s,
  always_truthy (fetchFunction s.1) ->
  fetched_once s ->
  fetched_once (after call urls s)
  /\ forall k, is_Some (cache (after call urls s).1 !! k) <->
       is_Some (cache s.1 !! k) \/ (k ∈ urls /\ inherited k = None).
Proof.
  induction urls as [|url urls IH]; intros s Hf Hs.
  - rewrite after_nil. split; [done|]. intros k. rewrite elem_of_nil. tauto.
  - rewrite after_cons.
    destruct (fetched_once_call url s Hf Hs) as [Hs1 Hdom1].
    destruct (IH (call url s).2) as [Hs2 Hdom2];
      [now rewrite call_fetchFunction|done|].
    split; [done|]. intros k. rewrite Hdom2, Hdom1, elem_of_cons. tauto.
Qed.

(** X6.  Memoization over a whole run of sequential calls (each call
    settles before the next starts): when the fetch function always
    resolves, with truthy values, a new wrapper calls it exactly once for
    every key requested that [{}] does not inherit, however often and in
    whatever order the keys are requested, and for no other key. *)
Theorem each_key_is_fetched_once f (w0 : World) (urls : list string) :
  always_truthy f ->
  NoDup (fetches (trace (after call urls (createAPICache f, mkEnv w0 [])).2))
  /\ forall k,
       k ∈ fetches (trace (after call urls (createAPICache f, mkEnv w0 [])).2)
       <-> k ∈ urls /\ inherited k = None.
Proof.
  intros Hf.
  destruct (fetched_once_after urls (createAPICache f, mkEnv w0 []))
    as [(_ & Hmem & Hnd) Hdom]; [done| |].
  - split; [|split]; simpl.
    + intros k v. now rewrite lookup_empty.
    + intros k. rewrite lookup_empty, elem_of_nil. split; [done|].
      now intros [? ?].
    + apply NoDup_nil_2.
  - split; [done|]. intros k. rewrite Hmem, Hdom. simpl.
    rewrite lookup_empty. split; [intros [[? ?]|?]; done|tauto].
Qed.

(** *** Transparency *)

Lemma call_transparent f (w0 : World) url s :
  history_independent f ->
  inherited url = None ->
  fetchFunction s.1 = f ->
  (forall k v, cache s.1 !! k = Some v -> (f k w0).1 = Fulfilled v) ->
  (call url s).1 = (f url w0).1
  /\ (forall k v, cache (call url s).2.1 !! k = Some v ->
        (f k w0).1 = Fulfilled v).
Proof.
  intros Hf Hinh Hfun Hs.
  assert (Hres : (call url s).1 = (f url w0).1).
  { destruct (truthy (cache_get (cache s.1) url)) eqn:Hhit.
    - rewrite (call_hit url s Hhit). simpl. unfold cache_get in *.
      destruct (cache s.1 !! url) as [v|] eqn:Hown.
      + symmetry. now apply Hs.
      + rewrite Hinh in Hhit. discriminate.
    - rewrite (call_miss url s Hhit), Hfun.
      pose proof (Hf url (world s.2) w0) as He.
      destruct (f url (world s.2)) as [[r|e] w]; simpl in *; congruence. }
  split; [done|]. intros k v.
  destruct (call_cache url s) as [->|(_ & r & Hr & ->)]; [apply Hs|].
  destruct (decide (url = k)) as [<-|Hne].
  - rewrite lookup_insert_eq. intros [= <-]. congruence.
  - rewrite lookup_insert_ne by done. apply Hs.
Qed.

Lemma outputs_transparent f (w0 : World) (urls : list string) : forall s,
  history_independent f ->
  Forall (fun k => inherited k = None) urls ->
  fetchFunction s.1 = f ->
  (forall k v, cache s.1 !! k = Some v -> (f k w0).1 = Fulfilled v) ->
  outputs call urls s = map (fun k => (f k w0).1) urls.
Proof.
  induction urls as [|url urls IH]; intros s Hf Hurls Hfun Hs; [done|].
  apply Forall_cons in Hurls as [Hurl Hurls].
  destruct (call_transparent f w0 url s Hf Hurl Hfun Hs) as [Hres Hs'].
  rewrite outputs_cons, Hres. simpl. f_equal.
  apply IH; [done|done| |done]. now rewrite call_fetchFunction.
Qed.

(** X7.  Caching is transparent for a fetch function whose outcome does
    not depend on its own state: over any run of a new wrapper on keys that
    [{}] does not inherit, every call settles exactly as the fetch function
    itself would, be it with a truthy value, a falsy value or a failure. *)
Theorem wrapper_is_transparent f (w0 : World) (urls : list string) :
  history_independent f ->
  Forall (fun k => inherited k = None) urls ->
  outputs call urls (createAPICache f, mkEnv w0 [])
  = map (fun k => (f k w0).1) urls.
Proof.
  intros Hf Hurls. apply outputs_transparent; [done|done|done|].
  intros k v. simpl. now rewrite lookup_empty.
Qed.

(** *** Only what was requested *)

Lemma fetches_after (urls : list string) : forall s,
  exists l, fetches (trace (after call urls s).2) = fetches (trace s.2) ++ l
    /\ sublist l urls.
Proof.
  induction urls as [|url urls IH]; intros s.
  - exists []. rewrite after_nil, app_nil_r. split; [done|constructor].
  - rewrite after_cons. destruct (IH (call url s).2) as (l & -> & Hl).
    destruct (truthy (cache_get (cache s.1) url)) eqn:Hhit.
    + rewrite call_hit_fetches by done. exists l.
      split; [done|now apply sublist_cons].
    + rewrite call_miss_fetches by done. exists (url :: l).
      rewrite <- app_assoc. split; [done|now apply sublist_skip].
Qed.

Lemma stored_keys_fetched url s :
  (forall k, is_Some (cache s.1 !! k) -> k ∈ fetches (trace s.2)) ->
  forall k, is_Some (cache (call url s).2.1 !! k) ->
    k ∈ fetches (trace (call url s).2.2).
Proof.
  intros Hs k. destruct (truthy (cache_get (cache s.1) url)) eqn:Hhit.
  - rewrite call_hit_fetches by done. rewrite (call_hit url s Hhit). apply Hs.
  - rewrite call_miss_fetches by done. rewrite elem_of_app.
    destruct (call_cache url s) as [->|(_ & r & _ & ->)];
      [intros H; left; now apply Hs|].
    rewrite lookup_insert_is_Some, list_elem_of_singleton.
    intros [->|[_ H]]; [now right|left; now apply Hs].
Qed.

(** X8.  The wrapper asks for nothing on its own: over any run of a new
    wrapper, the keys passed to the fetch function are keys of the calls,
    in the order of the calls and at most one per call, and the cache holds
    entries for requested keys only. *)
Theorem only_requested_keys_are_fetched f (w0 : World) (urls : list string) :
  sublist (fetches (trace (after call urls (createAPICache f, mkEnv w0 [])).2))
    urls
  /\ (length (fetches (trace (after call urls
                                (createAPICache f, mkEnv w0 [])).2))
      <= length urls)%nat
  /\ (forall k,
        is_Some (cache (after call urls (createAPICache f, mkEnv w0 [])).1 !! k)
        -> k ∈ urls).
Proof.
  destruct (fetches_after urls (createAPICache f, mkEnv w0 []))
    as (l & Hl & Hsub).
  simpl in Hl. rewrite Hl.
  split; [done|]. split; [now apply sublist_length|].
  intros k Hk. apply (sublist_subseteq _ _ Hsub). rewrite <- Hl.
  revert k Hk.
  apply (after_invariant call
           (fun s => forall k, is_Some (cache s.1 !! k) ->
                       k ∈ fetches (trace s.2))).
  - intros url s _. apply stored_keys_fetched.
  - intros k. simpl. rewrite lookup_empty. now intros [? ?].
Qed.

(** *** The cache and the trace *)

Lemma last_fulfilled_app k (t1 t2 : list Event) :
  last_fulfilled k (t1 ++ t2) =
    match last_fulfilled k t2 with
    | Some v => Some v
    | None => last_fulfilled k t1
    end.
Proof.
  induction t1 as [|a t1 IH]; simpl.
  - now destruct (last_fulfilled k t2).
  - rewrite IH. now destruct (last_fulfilled k t2).
Qed.

Lemma latest_call url s :
  (forall k, cache s.1 !! k = last_fulfilled k (trace s.2)) ->
  forall k, cache (call url s).2.1 !! k
            = last_fulfilled k (trace (call url s).2.2).
Proof.
  intros Hs k. destruct (truthy (cache_get (cache s.1) url)) eqn:Hhit.
  - rewrite (call_hit url s Hhit). simpl. now rewrite last_fulfilled_app.
  - rewrite (call_miss url s Hhit).
    destruct (fetchFunction s.1 url (world s.2)) as [[r|e] w]; simpl;
      rewrite last_fulfilled_app; simpl; [|done].
    unfold cache_set. destruct (String.eqb_spec url k) as [->|Hne].
    + apply lookup_insert_eq.
    + now rewrite lookup_insert_ne.
Qed.

(** X9.  The cache follows the fetch function: after any run of a new
    wrapper, the entry stored for a key is the value that the most recent
    resolved call of the fetch function for that key resolved with, and a
    key for which it never resolved has no entry. *)
Theorem cache_holds_latest_results f (w0 : World) (urls : list string) k :
  cache (after call urls (createAPICache f, mkEnv w0 [])).1 !! k
  = last_fulfilled k (trace (after call urls (createAPICache f, mkEnv w0 [])).2).
Proof.
  revert k.
  apply (after_invariant call
           (fun s => forall k, cache s.1 !! k = last_fulfilled k (trace s.2))).
  - intros url s _. apply latest_call.
  - intros k. simpl. apply lookup_empty.
Qed.

(** *** The console *)

Lemma console_app (t1 t2 : list Event) :
  console (t1 ++ t2) = console t1 ++ console t2.
Proof.
  induction t1 as [|[msg arg|url o] t1 IH]; simpl; [done|now f_equal|done].
Qed.

Lemma call_console url s :
  map snd (console (trace (call url s).2.2))
  = map snd (console (trace s.2)) ++ [url].
Proof.
  destruct (truthy (cache_get (cache s.1) url)) eqn:Hhit.
  - rewrite (call_hit url s Hhit). simpl. now rewrite console_app, map_app.
  - rewrite (call_miss url s Hhit).
    destruct (fetchFunction s.1 url (world s.2)) as [[r|e] w]; simpl;
      now rewrite console_app, map_app.
Qed.

Lemma after_console (urls : list string) : forall s,
  map snd (console (trace (after call urls s).2))
  = map snd (console (trace s.2)) ++ urls.
Proof.
  induction urls as [|url urls IH]; intros s.
  - now rewrite after_nil, app_nil_r.
  - now rewrite after_cons, IH, call_console, <- app_assoc.
Qed.

Lemma call_announced url s :
  map snd (filter (fun line => line.1 = "🌐 Fetching from API:"%string)
             (console (trace s.2)))
  = fetches (trace s.2) ->
  map snd (filter (fun line => line.1 = "🌐 Fetching from API:"%string)
             (console (trace (call url s).2.2)))
  = fetches (trace (call url s).2.2).
Proof.
  intros Hs. destruct (truthy (cache_get (cache s.1) url)) eqn:Hhit.
  - rewrite call_hit_fetches by done. rewrite (call_hit url s Hhit). simpl.
    rewrite console_app, filter_app. simpl console.
    rewrite filter_cons_False by (simpl; discriminate).
    rewrite filter_nil, app_nil_r. done.
  - rewrite call_miss_fetches by done. rewrite (call_miss url s Hhit).
    destruct (fetchFunction s.1 url (world s.2)) as [[r|e] w]; simpl;
      rewrite console_app, filter_app; simpl console;
      rewrite filter_cons_True by reflexivity;
      rewrite filter_nil, map_app, Hs; done.
Qed.

(** X10.  The console tells what happened: over any run of a new wrapper,
    every call prints exactly one line, about its own key, and the lines
    "Fetching from API" name exactly the keys passed to the fetch
    function, in order; every other call prints "Returning from cache". *)
Theorem console_reports_every_call f (w0 : World) (urls : list string) :
  map snd (console (trace (after call urls (createAPICache f, mkEnv w0 [])).2))
  = urls
  /\ map snd (filter (fun line => line.1 = "🌐 Fetching from API:"%string)
                (console (trace (after call urls
                                   (createAPICache f, mkEnv w0 [])).2)))
     = fetches (trace (after call urls (createAPICache f, mkEnv w0 [])).2)
  /\ Forall (fun line => line.1 = "🌐 Fetching from API:"%string
                         \/ line.1 = "📦 Returning from cache:"%string)
       (console (trace (after call urls (createAPICache f, mkEnv w0 [])).2)).
Proof.
  split; [now rewrite after_console|]. split.
  - apply (after_invariant call
             (fun s => map snd (filter (fun line => line.1
                                          = "🌐 Fetching from API:"%string)
                                  (console (trace s.2)))
                       = fetches (trace s.2))); [|done].
    intros url s _. apply call_announced.
  - apply (after_invariant call
             (fun s => Forall (fun line => line.1 = "🌐 Fetching from API:"%string
                                  \/ line.1 = "📦 Returning from cache:"%string)
                         (console (trace s.2)))); [|constructor].
    intros url s _ Hs. destruct (truthy (cache_get (cache s.1) url)) eqn:Hhit.
    + rewrite (call_hit url s Hhit). simpl. rewrite console_app.
      apply Forall_app. split; [done|]. apply Forall_singleton. now right.
    + rewrite (call_miss url s Hhit).
      destruct (fetchFunction s.1 url (world s.2)) as [[r|e] w]; simpl;
        rewrite console_app; apply Forall_app; (split; [done|]);
        apply Forall_singleton; now left.
Qed.

End CacheMore.

(** ** The cached [fakeFetch] *)

Section CachedFakeFetch.
Import APICache.

Lemma fakeFetch_always_truthy : always_truthy fakeFetch.
Proof. intros k w. eexists. split; reflexivity. Qed.

Lemma fakeFetch_history_independent : history_independent fakeFetch.
Proof. intros k w w'. reflexivity. Qed.

(** Every call of [fakeFetch] sets one timer. *)
Lemma timers_call url (s : Closure nat * Env nat) :
  fetchFunction s.1 = fakeFetch ->
  world s.2 = length (fetches (trace s.2)) ->
  world (call url s).2.2 = length (fetches (trace (call url s).2.2)).
Proof.
  intros Hf Hs. destruct (truthy (cache_get (cache s.1) url)) eqn:Hhit.
  - rewrite call_hit_fetches by done. now rewrite (call_hit url s Hhit).
  - rewrite call_miss_fetches by done. rewrite (call_miss url s Hhit), Hf.
    simpl. rewrite length_app, Hs. simpl. lia.
Qed.

(** X12.  [cachedFetch], the wrapper of [fakeFetch] of the source: over
    any run of sequential calls (each call settles before the next
    starts), no key is fetched twice and the timers set are as many as the
    keys fetched; and on keys that [{}] does not inherit, every call
    resolves with "Data from " followed by its key, fetched or cached. *)
Theorem cachedFetch_of_fakeFetch (urls : list string) :
  NoDup (fetches (trace (after call urls cachedFetch).2))
  /\ world (after call urls cachedFetch).2
     = length (fetches (trace (after call urls cachedFetch).2))
  /\ (Forall (fun k => inherited k = None) urls ->
      outputs call urls cachedFetch
      = map (fun k => Fulfilled (VStr ("Data from " +:+ k))) urls).
Proof.
  split; [|split].
  - destruct (fetched_once_after urls cachedFetch) as [(_ & _ & Hnd) _];
      [apply fakeFetch_always_truthy| |done].
    split; [|split]; simpl.
    + intros k v. now rewrite lookup_empty.
    + intros k. rewrite lookup_empty, elem_of_nil. split; [done|].
      now intros [? ?].
    + apply NoDup_nil_2.
  - apply (after_invariant call
             (fun s => fetchFunction s.1 = fakeFetch
                       /\ world s.2 = length (fetches (trace s.2))));
      [|done].
    intros url s _ [Hf Hs]. split; [now rewrite call_fetchFunction|].
    now apply timers_call.
  - intros Hurls.
    rewrite (outputs_transparent fakeFetch 0%nat urls cachedFetch
               fakeFetch_history_independent Hurls eq_refl); [done|].
    intros k v. simpl. now rewrite lookup_empty.
Qed.

(** The run of the source file, with more calls. *)
Lemma cachedFetch_witness :
  outputs call ["https://api.com/users/1"; "https://api.com/users/1";
                "https://api.com/users/2"; "https://api.com/users/1"]%string
    cachedFetch
  = [ Fulfilled (VStr "Data from https://api.com/users/1");
      Fulfilled (VStr "Data from https://api.com/users/1");
      Fulfilled (VStr "Data from https://api.com/users/2");
      Fulfilled (VStr "Data from https://api.com/users/1") ].
Proof.
  apply (proj2 (proj2 (cachedFetch_of_fakeFetch
           ["https://api.com/users/1"; "https://api.com/users/1";
            "https://api.com/users/2"; "https://api.com/users/1"]%string))).
  repeat constructor.
Defined.

(** A wrapper of a counter, asked for "hasOwnProperty" between other
    calls: the counter is never asked for it. *)
Lemma inherited_keys_witness :
  cache (after call ["hasOwnProperty"; "x"; "hasOwnProperty"]%string
           (createAPICache counterFetch, mkEnv 0 [])).1
    !! "hasOwnProperty"%string = None
  /\ ("hasOwnProperty"%string
        ∉ fetches (trace (after call
                            ["hasOwnProperty"; "x"; "hasOwnProperty"]%string
                            (createAPICache counterFetch, mkEnv 0 [])).2))
  /\ (call "hasOwnProperty"
        (after call ["hasOwnProperty"; "x"; "hasOwnProperty"]%string
           (createAPICache counterFetch, mkEnv 0 []))).1
     = Fulfilled (VObj (ObjectProtoMethod "hasOwnProperty"))
  /\ fetches (trace (call "hasOwnProperty"
        (after call ["hasOwnProperty"; "x"; "hasOwnProperty"]%string
           (createAPICache counterFetch, mkEnv 0 []))).2.2)
     = fetches (trace (after call
                         ["hasOwnProperty"; "x"; "hasOwnProperty"]%string
                         (createAPICache counterFetch, mkEnv 0 [])).2).
Proof.
  apply (inherited_keys_are_never_fetched counterFetch 0
           ["hasOwnProperty"; "x"; "hasOwnProperty"]%string
           "hasOwnProperty" (VObj (ObjectProtoMethod "hasOwnProperty"))).
  reflexivity.
Defined.

(** Five calls of a wrapper of [fakeFetch], two keys fetched. *)
Lemma fetched_once_witness :
  NoDup (fetches (trace (after call ["A"; "B"; "A"; "toString"; "B"]%string
                           (createAPICache fakeFetch, mkEnv 0%nat [])).2))
  /\ ("A"%string
        ∈ fetches (trace (after call ["A"; "B"; "A"; "toString"; "B"]%string
                            (createAPICache fakeFetch, mkEnv 0%nat [])).2)
      <-> "A"%string ∈ ["A"; "B"; "A"; "toString"; "B"]%string
          /\ inherited "A" = None).
Proof.
  destruct (each_key_is_fetched_once fakeFetch 0%nat
              ["A"; "B"; "A"; "toString"; "B"]%string
              fakeFetch_always_truthy) as [Hnd Hmem].
  exact (conj Hnd (Hmem "A"%string)).
Defined.

(** A fetch function that resolves with 0, a falsy value: the wrapper
    answers as the function does. *)
Lemma transparent_witness :
  outputs call ["A"; "A"; "B"]%string
    (createAPICache (constFetch (VNum 0)), mkEnv () [])
  = [Fulfilled (VNum 0); Fulfilled (VNum 0); Fulfilled (VNum 0)].
Proof.
  apply (wrapper_is_transparent (constFetch (VNum 0)) ()
           ["A"; "A"; "B"]%string).
  - intros k w w'. reflexivity.
  - repeat constructor.
Defined.

End CachedFakeFetch.
